(** * The result model of the code interpreter client (models.py)

    A shallow embedding of [e2b_code_interpreter/models.py]: the value
    types [Error], [Logs], [Execution], and the [Result] normaliser whose
    constructor splits a MIME-keyed dictionary into named fields.

    The constructor of [Result] mutates the dictionary it is given and keeps
    references to it, so dictionaries and lists live in an object store and
    are passed around by reference.  The deep copy it makes is recursive
    Python and raises RecursionError where the interpreter's recursion
    limit is reached, so the number of frames the limit leaves is a
    parameter of the constructor. *)

From stdpp Require Import gmap strings list fin_maps.

#[local] Set Warnings "-register-all,-clear-no-such-hyp".

(** ** Python values and the object store *)

(** Object identities. *)
Definition loc := positive.

(** Values as they are bound to names and stored in containers: immutable
    atoms are kept by value, dictionaries and lists by reference. *)
Inductive val :=
  | VNone
  | VBool (b : bool)
  | VInt (z : Z)
  | VStr (s : string)
  | VRef (l : loc).

(** Mutable objects. A [dict] keyed by strings (the MIME types), and a
    [list]; both occur inside decoded JSON payloads. *)
Inductive obj :=
  | ODict (d : gmap string val)
  | OList (vs : list val).

Abbreviation heap := (gmap loc obj).

#[global] Instance val_eq_dec : EqDecision val.
Proof. solve_decision. Defined.

#[global] Instance obj_eq_dec : EqDecision obj.
Proof. solve_decision. Defined.

(** Exceptions the modelled code can raise. *)
Inductive exn :=
  | KeyError (k : string)
  | TypeError
  | AttributeError
  | RecursionError.

(** ** Computations over the store

    A computation returns normally, raises, or is [Stuck] when the store is
    ill-formed (a reference to no object), which no Python state is.  The
    store is threaded through both normal and exceptional exits: what was
    mutated before an exception stays mutated. *)
Inductive outcome (A : Type) :=
  | Ok (a : A) (h : heap)
  | Raise (e : exn) (h : heap)
  | Stuck.
Arguments Ok {A} a h.
Arguments Raise {A} e h.
Arguments Stuck {A}.

Definition M (A : Type) : Type := heap → outcome A.

(** The exception a computation ended with, if it raised. *)
Definition raised {A} (o : outcome A) : option exn :=
  match o with
  | Raise e _ => Some e
  | _ => None
  end.

#[global] Instance M_ret : MRet M := λ A a h, Ok a h.

#[global] Instance M_bind : MBind M := λ A B f m h,
  match m h with
  | Ok a h' => f a h'
  | Raise e h' => Raise e h'
  | Stuck => Stuck
  end.

(** ** Strings *)

Definition newline : string := String (Ascii.ascii_of_nat 10) EmptyString.

(** [sep.join(l)] *)
Fixpoint str_join (sep : string) (l : list string) : string :=
  match l with
  | [] => EmptyString
  | [s] => s
  | s :: rest => s +:+ sep +:+ str_join sep rest
  end.

(** ** Error *)

Record Error := {
  name : string;
  value : string;
  traceback_raw : list string;
}.

(** The [traceback] property. *)
Definition Error_traceback (self : Error) : string :=
  str_join newline (traceback_raw self).

(** ** dict.pop *)

(** [x.pop(k)] when [dflt = None], [x.pop(k, v)] when [dflt = Some v].
    Only a [dict] has this method with a string argument: [list.pop] wants
    an index, and atoms have no [pop] attribute. *)
Definition dict_pop (x : val) (k : string) (dflt : option val) : M val := λ h,
  match x with
  | VRef l =>
      match h !! l with
      | Some (ODict d) =>
          match d !! k with
          | Some v => Ok v (<[l := ODict (delete k d)]> h)
          | None =>
              match dflt with
              | Some v => Ok v h
              | None => Raise (KeyError k) h
              end
          end
      | Some (OList _) => Raise TypeError h
      | None => Stuck
      end
  | _ => Raise AttributeError h
  end.

(** ** copy.deepcopy

    The standard library's algorithm: a memo maps the identity of every
    object already copied to its copy; atoms are their own copy; for a
    container a new empty container is allocated and entered into the memo
    before the elements are copied, so cycles and sharing are reproduced.
    The elements of the new container are written in one step once all of
    them are copied (the library adds them one by one; nothing reads the
    new container in between, and the containers of a copy that is given
    up are referred to by nothing).

    The library's functions are Python functions that call each other:
    every call of [deepcopy] runs in a frame of the interpreter, and calls
    the copier of the value's type (for an atom, the one that returns its
    argument) in another, from which the elements of a container are
    copied: for a list each element, for a dictionary the value of each
    item and then its key.  The interpreter raises RecursionError when a
    call needs a frame and the recursion limit leaves none; [frames] is
    the number of frames left. *)

Abbreviation memo := (gmap loc loc).

(** How a copy ends: done, out of frames, or at a reference to no object
    (which no Python state has). *)
Inductive copied (A : Type) :=
  | Copied (a : A) (st : memo * heap)
  | TooDeep (st : memo * heap)
  | NoObject.
Arguments Copied {A} a st.
Arguments TooDeep {A} st.
Arguments NoObject {A}.

Definition children (o : obj) : list val :=
  match o with
  | ODict d => (map_to_list d).*2
  | OList vs => vs
  end.

Definition blank (o : obj) : obj :=
  match o with
  | ODict _ => ODict ∅
  | OList _ => OList []
  end.

Definition rebuild (o : obj) (vs : list val) : obj :=
  match o with
  | ODict d => ODict (list_to_map (zip (map_to_list d).*1 vs))
  | OList _ => OList vs
  end.

Fixpoint copy_all (f : val → memo * heap → copied val)
    (vs : list val) (st : memo * heap) : copied (list val) :=
  match vs with
  | [] => Copied [] st
  | v :: vs' =>
      match f v st with
      | Copied v' st1 =>
          match copy_all f vs' st1 with
          | Copied vs'' st2 => Copied (v' :: vs'') st2
          | TooDeep st2 => TooDeep st2
          | NoObject => NoObject
          end
      | TooDeep st1 => TooDeep st1
      | NoObject => NoObject
      end
  end.

(** [deepcopy(key, memo)] for the key of an item, a string: a frame for
    [deepcopy] and one for the copier of atoms; the key is its own copy
    and nothing changes. *)
Definition copy_key (frames : nat) (st : memo * heap) : copied () :=
  match frames with
  | 0 | 1 => TooDeep st
  | _ => Copied () st
  end.

Definition keyed (o : obj) : bool :=
  match o with
  | ODict _ => true
  | OList _ => false
  end.

(** The copy of one element by [f]; in a dictionary the copy of the key
    follows that of the value. *)
Definition copy_element (keyed : bool) (frames : nat)
    (f : val → memo * heap → copied val) (v : val) (st : memo * heap)
    : copied val :=
  match f v st with
  | Copied v' st1 =>
      if keyed then
        match copy_key frames st1 with
        | Copied _ st2 => Copied v' st2
        | TooDeep st2 => TooDeep st2
        | NoObject => NoObject
        end
      else Copied v' st1
  | TooDeep st1 => TooDeep st1
  | NoObject => NoObject
  end.

Fixpoint deepcopy (frames : nat) (v : val) (st : memo * heap) : copied val :=
  match frames with
  | 0 => TooDeep st
  | S frames1 =>
      match v with
      | VRef l =>
          match st.1 !! l with
          | Some l' => Copied (VRef l') st
          | None =>
              match st.2 !! l with
              | Some o =>
                  match frames1 with
                  | 0 => TooDeep st
                  | S frames2 =>
                      let l' := fresh (dom st.2) in
                      match copy_all
                              (copy_element (keyed o) frames2
                                 (deepcopy frames2))
                              (children o)
                              (<[l := l']> st.1, <[l' := blank o]> st.2) with
                      | Copied vs' st' =>
                          Copied (VRef l')
                                 (st'.1, <[l' := rebuild o vs']> st'.2)
                      | TooDeep st' => TooDeep st'
                      | NoObject => NoObject
                      end
                  end
              | None => NoObject
              end
          end
      | _ =>
          match frames1 with
          | 0 => TooDeep st
          | S _ => Copied v st
          end
      end
  end.

(** [copy.deepcopy(x)] with a fresh memo, called where the recursion limit
    leaves [frames] frames. *)
Definition copy_deepcopy (frames : nat) (x : val) : M val := λ h,
  match deepcopy frames x (∅, h) with
  | Copied y (_, h') => Ok y h'
  | TooDeep (_, h') => Raise RecursionError h'
  | NoObject => Stuck
  end.

(** Whether the deep copy of [x] in the store [h] gets by with [frames]
    frames. *)
Definition deepcopy_completes (frames : nat) (h : heap) (x : val) : bool :=
  match deepcopy frames x (∅, h) with
  | Copied _ _ => true
  | _ => false
  end.

(** The recursion limit of an interpreter started with its defaults: an
    upper bound on the frames a call can find left. *)
Definition default_recursion_limit : nat := 1000.

(** ** Result *)

Record Result := {
  text : val;
  html : val;
  markdown : val;
  svg : val;
  png : val;
  jpeg : val;
  pdf : val;
  latex : val;
  json : val;
  javascript : val;
  extra : val;
  is_main_result : bool;
  raw : val;
}.

(** [Result.__init__], called where the recursion limit leaves [frames]
    frames for the calls it makes. *)
Definition Result_init (frames : nat) (is_main_result : bool) (data : val)
    : M Result :=
  raw ← copy_deepcopy frames data;
  text ← dict_pop data "text/plain" None;
  html ← dict_pop data "text/html" (Some VNone);
  markdown ← dict_pop data "text/markdown" (Some VNone);
  svg ← dict_pop data "image/svg+xml" (Some VNone);
  png ← dict_pop data "image/png" (Some VNone);
  jpeg ← dict_pop data "image/jpeg" (Some VNone);
  pdf ← dict_pop data "application/pdf" (Some VNone);
  latex ← dict_pop data "text/latex" (Some VNone);
  json ← dict_pop data "application/json" (Some VNone);
  javascript ← dict_pop data "application/javascript" (Some VNone);
  mret {| text := text; html := html; markdown := markdown; svg := svg;
          png := png; jpeg := jpeg; pdf := pdf; latex := latex; json := json;
          javascript := javascript; extra := data;
          is_main_result := is_main_result; raw := raw |}.

(** ** Logs and Execution *)

Record Logs := {
  stdout : list string;
  stderr : list string;
}.

Record Execution := {
  results : list Result;
  logs : Logs;
  error : option Error;
}.

(** The loop of the [text] property; falling off its end returns [None]. *)
Fixpoint Execution_text_loop (ds : list Result) : val :=
  match ds with
  | [] => VNone
  | d :: ds' => if is_main_result d then text d else Execution_text_loop ds'
  end.

Definition Execution_text (self : Execution) : val :=
  Execution_text_loop (results self).

(** ** Well-formed stores and object graphs *)

(** A value is closed in a store when it refers to an object of the store;
    a store is closed when every element of every container is.  Every
    Python state is closed: a reference keeps its target alive. *)
Definition closed_val (h : heap) (v : val) : Prop :=
  match v with
  | VRef l => is_Some (h !! l)
  | _ => True
  end.

Definition closed_heap (h : heap) : Prop :=
  map_Forall (λ _ o, Forall (closed_val h) (children o)) h.

#[global] Instance closed_val_dec h v : Decision (closed_val h v).
Proof. destruct v; simpl; apply _. Defined.

#[global] Instance closed_heap_dec h : Decision (closed_heap h).
Proof. unfold closed_heap. apply _. Defined.

(** Renaming of references along a memo. *)
Definition rename_val (ρ : memo) (v : val) : val :=
  match v with
  | VRef l => VRef (default l (ρ !! l))
  | _ => v
  end.

Definition rename_obj (ρ : memo) (o : obj) : obj :=
  match o with
  | ODict d => ODict (rename_val ρ <$> d)
  | OList vs => OList (rename_val ρ <$> vs)
  end.

Definition in_memo (ρ : memo) (v : val) : Prop :=
  match v with
  | VRef l => is_Some (ρ !! l)
  | _ => True
  end.

(** The invariant of a deep copy of objects of [h0] in progress.  [P] is
    the set of objects whose copy is allocated but not yet filled (the
    callers up the stack).  The memo is an injection from objects of [h0]
    to objects allocated since; [h0] itself is untouched; a finished copy
    holds the original's elements renamed along the memo. *)
Record copy_inv (h0 : heap) (P : gset loc) (ρ : memo) (h : heap) : Prop := {
  inv_frame : h0 ⊆ h;
  inv_memo : ∀ l l', ρ !! l = Some l' →
    is_Some (h0 !! l) ∧ h0 !! l' = None ∧ is_Some (h !! l');
  inv_inj : ∀ l1 l2 l', ρ !! l1 = Some l' → ρ !! l2 = Some l' → l1 = l2;
  inv_done : ∀ l l', ρ !! l = Some l' → l ∉ P →
    ∃ o, h0 !! l = Some o ∧ Forall (in_memo ρ) (children o) ∧
         h !! l' = Some (rename_obj ρ o);
}.

Definition copy_post (h0 : heap) (P : gset loc) (ρ : memo) (v : val)
    (res : copied val) : Prop :=
  match res with
  | Copied v' (ρ', h') =>
      v' = rename_val ρ' v ∧ ρ ⊆ ρ' ∧ in_memo ρ' v ∧ copy_inv h0 P ρ' h'
  | TooDeep (_, h') => h0 ⊆ h'
  | NoObject => False
  end.

Definition copy_all_post (h0 : heap) (P : gset loc) (ρ : memo)
    (vs : list val) (res : copied (list val)) : Prop :=
  match res with
  | Copied vs' (ρ', h') =>
      vs' = rename_val ρ' <$> vs ∧ ρ ⊆ ρ' ∧ Forall (in_memo ρ') vs ∧
      copy_inv h0 P ρ' h'
  | TooDeep (_, h') => h0 ⊆ h'
  | NoObject => False
  end.

Definition is_copied {A} (res : copied A) : Prop :=
  match res with
  | Copied _ _ => True
  | _ => False
  end.

(** The value a reference stands for, unfolded to depth [n]: what [==]
    and printing observe.  Two values with the same view at every depth
    are equal as Python values. *)
Inductive tree :=
  | TNone
  | TBool (b : bool)
  | TInt (z : Z)
  | TStr (s : string)
  | TDict (d : gmap string tree)
  | TList (ts : list tree)
  | TCut.

Fixpoint view (n : nat) (h : heap) (v : val) : tree :=
  match v with
  | VNone => TNone
  | VBool b => TBool b
  | VInt z => TInt z
  | VStr s => TStr s
  | VRef l =>
      match n with
      | 0 => TCut
      | S n' =>
          match h !! l with
          | Some (ODict d) => TDict (view n' h <$> d)
          | Some (OList vs) => TList (view n' h <$> vs)
          | None => TCut
          end
      end
  end.

(** ** The well-known MIME types *)

(** The keys [Result.__init__] pops, in the order it pops them. *)
Definition well_known : list string :=
  [ "text/plain"; "text/html"; "text/markdown"; "image/svg+xml"; "image/png";
    "image/jpeg"; "application/pdf"; "text/latex"; "application/json";
    "application/javascript" ].

(** Each well-known key with the attribute it is assigned to. *)
Definition named_fields : list (string * (Result → val)) :=
  [ ("text/plain", text); ("text/html", html); ("text/markdown", markdown);
    ("image/svg+xml", svg); ("image/png", png); ("image/jpeg", jpeg);
    ("application/pdf", pdf); ("text/latex", latex);
    ("application/json", json); ("application/javascript", javascript) ].

(** A dictionary after the keys [ks] were popped one after the other. *)
Definition popped (ks : list string) (d : gmap string val) : gmap string val :=
  foldl (λ d' k, delete k d') d ks.

(** The dictionary rebuilt from a [Result]: the keys of [raw], each with
    the value of its named field if it is well-known and with its value
    in [extra] otherwise. *)
Definition field_of (r : Result) (k : string) : option val :=
  (λ f : Result → val, f r) <$>
    (list_to_map named_fields : gmap string (Result → val)) !! k.

Definition reconstruct (r : Result) (raw_d extra_d : gmap string val)
    : gmap string val :=
  map_imap (λ k _, Some (default (default VNone (extra_d !! k)) (field_of r k)))
           raw_d.

(** ** Reading and writing a dictionary entry *)

(** [x[k]] *)
Definition dict_getitem (x : val) (k : string) : M val := λ h,
  match x with
  | VRef l =>
      match h !! l with
      | Some (ODict d) =>
          match d !! k with
          | Some v => Ok v h
          | None => Raise (KeyError k) h
          end
      | Some (OList _) => Raise TypeError h
      | None => Stuck
      end
  | _ => Raise TypeError h
  end.

(** [x[k] = v] *)
Definition dict_setitem (x : val) (k : string) (v : val) : M () := λ h,
  match x with
  | VRef l =>
      match h !! l with
      | Some (ODict d) => Ok () (<[l := ODict (<[k := v]> d)]> h)
      | Some (OList _) => Raise TypeError h
      | None => Stuck
      end
  | _ => Raise TypeError h
  end.

(** ** The traceback, in the words of its description

    The lines with a newline between each two neighbours: start from the
    first line and append, for every further line, a newline and the line. *)
Definition joined_with_newlines (lines : list string) : string :=
  match lines with
  | [] => EmptyString
  | first :: others => foldl (λ acc line, acc +:+ newline +:+ line) first others
  end.

(** ** A store with nested and cyclic data

    Object 1 is a payload with a text, a picture, a JSON value and a MIME
    type that is not well-known; the JSON value (object 2) holds a list
    (object 3) that refers back to it. *)

Definition ex_payload : gmap string val :=
  <["text/plain" := VStr "42"]> (<["image/png" := VStr "iVBORw0K"]>
  (<["application/json" := VRef 2%positive]>
  (<["application/x-custom" := VStr "xyz"]> ∅))).

Definition ex_heap : heap :=
  <[1%positive := ODict ex_payload]>
  (<[2%positive := ODict (<["rows" := VRef 3%positive]> ∅)]>
  (<[3%positive := OList [VInt 1; VRef 2%positive]]> ∅)).

(** ** Inputs for [Execution]: a display call followed by the cell's value *)

Definition display_result : Result :=
  {| text := VStr "<Figure>"; html := VNone; markdown := VNone; svg := VNone;
     png := VStr "iVBORw0K"; jpeg := VNone; pdf := VNone; latex := VNone;
     json := VNone; javascript := VNone; extra := VRef 1%positive;
     is_main_result := false; raw := VRef 2%positive |}.

Definition main_result : Result :=
  {| text := VStr "42"; html := VNone; markdown := VNone; svg := VNone;
     png := VNone; jpeg := VNone; pdf := VNone; latex := VNone;
     json := VNone; javascript := VNone; extra := VRef 3%positive;
     is_main_result := true; raw := VRef 4%positive |}.

Definition no_logs : Logs := {| stdout := []; stderr := [] |}.

(** ** Deeply nested JSON

    [nested_chain n l] holds the objects [l] to [l + n]: each of the first
    [n] is a dictionary whose one entry is the next, the last is empty.
    [deep_heap n] is a payload whose JSON value is such a chain, as decoded
    from [n + 1] opening braces; [deep_heap_no_text n] the same without
    the text. *)

Fixpoint nested_chain (n : nat) (l : loc) : heap :=
  match n with
  | 0 => <[l := ODict ∅]> ∅
  | S n' => <[l := ODict (<["a" := VRef (Pos.succ l)]> ∅)]>
              (nested_chain n' (Pos.succ l))
  end.

Definition deep_payload : gmap string val :=
  <["text/plain" := VStr "42"]> (<["application/json" := VRef 2%positive]> ∅).

Definition deep_heap (n : nat) : heap :=
  <[1%positive := ODict deep_payload]> (nested_chain n 2%positive).

Definition deep_payload_no_text : gmap string val :=
  <["application/json" := VRef 2%positive]> ∅.

Definition deep_heap_no_text (n : nat) : heap :=
  <[1%positive := ODict deep_payload_no_text]> (nested_chain n 2%positive).

(** ** A small input: one dictionary holding a text and a picture *)

Definition small_payload : gmap string val :=
  <["text/plain" := VStr "42"]> (<["image/png" := VStr "iVBORw0K"]> ∅).

Definition small_heap : heap := <[1%positive := ODict small_payload]> ∅.

(** ** An input with a MIME type that is not well-known *)

Definition custom_payload : gmap string val :=
  <["text/plain" := VStr "hi"]> (<["application/x-custom" := VStr "xyz"]> ∅).

Definition custom_heap : heap := <[1%positive := ODict custom_payload]> ∅.

(** The attributes [Result.__init__] computes from a dictionary [d]: each
    named field is the entry of its key, or [None]. *)
Definition entry (d : gmap string val) (k : string) : val :=
  default VNone (d !! k).

Definition split_fields (is_main : bool) (rawv data : val)
    (d : gmap string val) : Result :=
  {| text := entry d "text/plain"; html := entry d "text/html";
     markdown := entry d "text/markdown"; svg := entry d "image/svg+xml";
     png := entry d "image/png"; jpeg := entry d "image/jpeg";
     pdf := entry d "application/pdf"; latex := entry d "text/latex";
     json := entry d "application/json";
     javascript := entry d "application/javascript";
     extra := data; is_main_result := is_main; raw := rawv |}.

(** What [deepcopy] allocates is entered into the memo, and the memo only
    grows. *)
Definition copy_grows (ρ : memo) (h : heap) (ρ' : memo) (h' : heap) : Prop :=
  ρ ⊆ ρ' ∧
  ∀ x, is_Some (h' !! x) → is_Some (h !! x) ∨ ∃ l, ρ' !! l = Some x.

(** ** Splitting a string at a character *)

(** Whether the character occurs in the string. *)
Fixpoint has_char (c : Ascii.ascii) (s : string) : bool :=
  match s with
  | EmptyString => false
  | String a s' => if decide (a = c) then true else has_char c s'
  end.

(** [s.split(c)] for a separator of one character: the pieces between
    the occurrences of [c]; a string without [c] is its only piece. *)
Fixpoint str_split (c : Ascii.ascii) (s : string) : list string :=
  match s with
  | EmptyString => [EmptyString]
  | String a s' =>
      if decide (a = c) then EmptyString :: str_split c s'
      else match str_split c s' with
           | piece :: pieces => String a piece :: pieces
           | [] => [String a EmptyString]
           end
  end.

(** ** Result.keys *)

(** [Result.keys] is [self.raw.keys()].  The view it returns is read at
    once: the result is the set of keys the dictionary has at the call.
    A list and the atoms have no [keys] attribute. *)
Definition Result_keys (self : Result) : M (gset string) := λ h,
  match raw self with
  | VRef l =>
      match h !! l with
      | Some (ODict d) => Ok (dom d) h
      | Some (OList _) => Raise AttributeError h
      | None => Stuck
      end
  | _ => Raise AttributeError h
  end.

(** Whether some Result of a list is marked as the main one. *)
Definition has_main (ds : list Result) : bool :=
  existsb is_main_result ds.

(** * Properties *)

(** ** Renaming *)

Lemma rename_val_ext ρ ρ' v :
  ρ ⊆ ρ' → in_memo ρ v → rename_val ρ' v = rename_val ρ v.
Proof.
  intros Hsub Hin. destruct v as [| | | |l]; simpl in *; try done.
  destruct Hin as [l' Hl']. rewrite Hl'.
  by rewrite (lookup_weaken _ _ _ _ Hl' Hsub).
Qed.

Lemma in_memo_weaken ρ ρ' v : ρ ⊆ ρ' → in_memo ρ v → in_memo ρ' v.
Proof.
  intros Hsub Hin. destruct v as [| | | |l]; simpl in *; try done.
  destruct Hin as [l' Hl']. exists l'. by eapply lookup_weaken.
Qed.

Lemma Forall_in_memo_weaken ρ ρ' vs :
  ρ ⊆ ρ' → Forall (in_memo ρ) vs → Forall (in_memo ρ') vs.
Proof.
  intros Hsub Hall. eapply Forall_impl; [exact Hall|].
  intros v. by apply in_memo_weaken.
Qed.

Lemma rename_vals_ext ρ ρ' vs :
  ρ ⊆ ρ' → Forall (in_memo ρ) vs →
  rename_val ρ' <$> vs = rename_val ρ <$> vs.
Proof.
  intros Hsub Hall. apply Forall_fmap_ext.
  eapply Forall_impl; [exact Hall|]. intros v. by apply rename_val_ext.
Qed.

Lemma children_lookup d k v :
  d !! k = Some v → v ∈ children (ODict d).
Proof.
  intros Hk. simpl. apply list_elem_of_fmap. exists (k, v). split; [done|].
  by apply elem_of_map_to_list.
Qed.

Lemma rename_obj_ext ρ ρ' o :
  ρ ⊆ ρ' → Forall (in_memo ρ) (children o) →
  rename_obj ρ' o = rename_obj ρ o.
Proof.
  intros Hsub Hall. destruct o as [d|vs]; simpl.
  - f_equal. apply map_fmap_ext. intros k v Hk.
    apply rename_val_ext; [done|].
    rewrite Forall_forall in Hall. apply Hall. by eapply children_lookup.
  - f_equal. by apply rename_vals_ext.
Qed.

Lemma zip_fst_snd_fmap {A B C} (f : B → C) (l : list (A * B)) :
  zip l.*1 (f <$> l.*2) = prod_map id f <$> l.
Proof. induction l as [|[a b] l IH]; [done|]. simpl. f_equal. exact IH. Qed.

Lemma rebuild_rename ρ o :
  rebuild o (rename_val ρ <$> children o) = rename_obj ρ o.
Proof.
  destruct o as [d|vs]; [|done].
  unfold rebuild, children, rename_obj.
  by rewrite zip_fst_snd_fmap, list_to_map_fmap, list_to_map_to_list.
Qed.

(** ** The deep copy *)

(** The number of objects not yet in the memo bounds the remaining depth. *)
Lemma memo_measure_mono (h0 : heap) (ρ ρ' : memo) :
  ρ ⊆ ρ' → size (dom h0 ∖ dom ρ') ≤ size (dom h0 ∖ dom ρ).
Proof.
  intros Hsub. apply subseteq_size. apply subseteq_dom in Hsub. set_solver.
Qed.

Lemma memo_measure_insert (h0 : heap) (ρ : memo) l l' :
  is_Some (h0 !! l) → ρ !! l = None →
  size (dom h0 ∖ dom (<[l:=l']> ρ)) < size (dom h0 ∖ dom ρ).
Proof.
  intros Hl Hn. apply subset_size. rewrite dom_insert_L.
  apply elem_of_dom in Hl. apply not_elem_of_dom in Hn.
  split; [set_solver|]. intros Hsub. specialize (Hsub l). set_solver.
Qed.

Section deepcopy_correct.
Context (h0 : heap) (h0_closed : closed_heap h0).

Lemma copy_inv_init : copy_inv h0 ∅ ∅ h0.
Proof. split; [done| | |]; intros ??; by rewrite lookup_empty. Qed.

Lemma closed_children l o :
  h0 !! l = Some o → Forall (closed_val h0) (children o).
Proof. intros Hl. exact (h0_closed l o Hl). Qed.

Lemma copy_inv_alloc P ρ h l o :
  copy_inv h0 P ρ h → h0 !! l = Some o → ρ !! l = None →
  copy_inv h0 (P ∪ {[l]}) (<[l := fresh (dom h)]> ρ)
           (<[fresh (dom h) := blank o]> h).
Proof.
  intros [Hfr Hmemo Hinj Hdone] Hl Hρ.
  set (l' := fresh (dom h)).
  assert (h !! l' = None) as Hl' by apply not_elem_of_dom, is_fresh.
  assert (h0 !! l' = None) as Hl0'.
  { destruct (h0 !! l') as [o'|] eqn:E; [|done].
    by rewrite (lookup_weaken _ _ _ _ E Hfr) in Hl'. }
  assert (∀ l2 l2', ρ !! l2 = Some l2' → l2' ≠ l') as Hne.
  { intros l2 l2' H2 ->. destruct (Hmemo _ _ H2) as (_ & _ & [? Hs]).
    congruence. }
  split.
  - by apply insert_subseteq_r.
  - intros l2 l2'. rewrite lookup_insert. case_decide as Hd.
    + intros [= <-]. subst l2. rewrite lookup_insert_eq. eauto.
    + intros H2. destruct (Hmemo _ _ H2) as (? & ? & ?).
      split_and!; [done..|]. rewrite lookup_insert_ne; [done|].
      intros Heq. by eapply Hne.
  - intros l1 l2 lx. rewrite !lookup_insert.
    repeat case_decide; subst; try done.
    + intros [= <-] H2. by destruct (Hne _ _ H2).
    + intros H1 [= <-]. by destruct (Hne _ _ H1).
    + apply Hinj.
  - intros l2 l2'. rewrite lookup_insert. case_decide as Hd.
    + intros _ Hnot. set_solver.
    + intros H2 Hnot. destruct (Hdone l2 l2' H2) as (o2 & Ho2 & Hall & Hh).
      { set_solver. }
      assert (ρ ⊆ <[l:=l']> ρ) as Hsub by by apply insert_subseteq.
      exists o2. split_and!; [done| |].
      * by eapply Forall_in_memo_weaken.
      * rewrite lookup_insert_ne; [|intros Heq; by eapply Hne].
        by rewrite (rename_obj_ext ρ).
Qed.

Lemma copy_inv_fill P ρ h l l' o :
  copy_inv h0 (P ∪ {[l]}) ρ h → ρ !! l = Some l' → h0 !! l = Some o →
  Forall (in_memo ρ) (children o) →
  copy_inv h0 P ρ (<[l' := rename_obj ρ o]> h).
Proof.
  intros [Hfr Hmemo Hinj Hdone] Hρ Hl Hall.
  destruct (Hmemo _ _ Hρ) as (_ & Hl0' & _).
  split.
  - by apply insert_subseteq_r.
  - intros l2 l2' H2. destruct (Hmemo _ _ H2) as (? & ? & ?).
    split_and!; [done..|]. rewrite lookup_insert. by case_decide.
  - done.
  - intros l2 l2' H2 Hnot. destruct (decide (l2 = l)) as [->|Hne].
    + assert (l2' = l') as -> by congruence.
      exists o. by rewrite lookup_insert_eq.
    + destruct (Hdone l2 l2' H2) as (o2 & Ho2 & Hall2 & Hh); [set_solver|].
      exists o2. split_and!; [done..|].
      rewrite lookup_insert_ne; [done|].
      intros <-. apply Hne. by eapply Hinj.
Qed.

Lemma copy_all_ok f n P :
  (∀ v ρ h, copy_inv h0 P ρ h → closed_val h0 v →
     copy_post h0 P ρ v (f v (ρ, h)) ∧
     (2 * size (dom h0 ∖ dom ρ) + 2 ≤ n → is_copied (f v (ρ, h)))) →
  ∀ vs ρ h, copy_inv h0 P ρ h → Forall (closed_val h0) vs →
    copy_all_post h0 P ρ vs (copy_all f vs (ρ, h)) ∧
    (2 * size (dom h0 ∖ dom ρ) + 2 ≤ n → is_copied (copy_all f vs (ρ, h))).
Proof.
  intros Hf vs. induction vs as [|v vs IH]; intros ρ h Hinv Hcl.
  - simpl. split; [by split_and!|done].
  - apply Forall_cons in Hcl as [Hv Hvs].
    destruct (Hf v ρ h Hinv Hv) as [Hpost Hen]. simpl.
    destruct (f v (ρ, h)) as [v1 [ρ1 h1]|[ρ1 h1]|]; simpl in *; [| |done].
    + destruct Hpost as (-> & Hsub1 & Hin1 & Hinv1).
      destruct (IH ρ1 h1 Hinv1 Hvs) as [Hpost2 Hen2].
      pose proof (memo_measure_mono h0 ρ ρ1 Hsub1) as Hmono.
      destruct (copy_all f vs (ρ1, h1)) as [vs2 [ρ2 h2]|[ρ2 h2]|];
        simpl in *; [| |done].
      * destruct Hpost2 as (-> & Hsub2 & Hin2 & Hinv2). split; [|done].
        split_and!.
        -- by rewrite (rename_val_ext ρ1 ρ2 v).
        -- by etrans.
        -- constructor; [by eapply in_memo_weaken|done].
        -- done.
      * split; [done|]. intros Hsz. apply Hen2. lia.
    + split; [done|]. exact Hen.
Qed.

Lemma copy_element_ok isd n g P :
  (∀ v ρ h, copy_inv h0 P ρ h → closed_val h0 v →
     copy_post h0 P ρ v (g v (ρ, h)) ∧
     (2 * size (dom h0 ∖ dom ρ) + 2 ≤ n → is_copied (g v (ρ, h)))) →
  ∀ v ρ h, copy_inv h0 P ρ h → closed_val h0 v →
    copy_post h0 P ρ v (copy_element isd n g v (ρ, h)) ∧
    (2 * size (dom h0 ∖ dom ρ) + 2 ≤ n →
     is_copied (copy_element isd n g v (ρ, h))).
Proof.
  intros Hg v ρ h Hinv Hv. destruct (Hg v ρ h Hinv Hv) as [Hpost Hen].
  unfold copy_element.
  destruct (g v (ρ, h)) as [v1 [ρ1 h1]|[ρ1 h1]|]; [|done..].
  destruct isd; [|done]. destruct n as [|[|n]]; simpl in *.
  - split; [|lia]. destruct Hpost as (_ & _ & _ & Hinv1).
    by eapply inv_frame.
  - split; [|lia]. destruct Hpost as (_ & _ & _ & Hinv1).
    by eapply inv_frame.
  - done.
Qed.

(** [deepcopy] on a value of a closed store: what it returns is the value
    renamed along the memo, with the invariant kept; when it runs out of
    frames the objects of [h0] are untouched; and two frames for every
    object not yet in the memo, and two more, are enough. *)
Lemma deepcopy_ok frames : ∀ v P ρ h,
  copy_inv h0 P ρ h → closed_val h0 v →
  copy_post h0 P ρ v (deepcopy frames v (ρ, h)) ∧
  (2 * size (dom h0 ∖ dom ρ) + 2 ≤ frames →
   is_copied (deepcopy frames v (ρ, h))).
Proof.
  induction frames as [frames IH] using lt_wf_ind. intros v P ρ h Hinv Hv.
  pose proof (inv_frame _ _ _ _ Hinv) as Hframe.
  destruct frames as [|frames1]; [split; [done|lia]|].
  destruct v as [| | | |l];
    try (destruct frames1; simpl;
         (split; [first [done|by split_and!]|first [done|intros; lia]])).
  cbn [deepcopy fst snd]. destruct (ρ !! l) as [l'|] eqn:Hρ.
  { split; [|done]. simpl. rewrite Hρ. split_and!; eauto. }
  destruct Hv as [o Hl]. rewrite (lookup_weaken _ _ _ _ Hl Hframe).
  destruct frames1 as [|frames2]; [split; [done|lia]|].
  set (l' := fresh (dom h)).
  pose proof (copy_inv_alloc P ρ h l o Hinv Hl Hρ) as Hinv1. fold l' in Hinv1.
  assert (ρ ⊆ <[l:=l']> ρ) as Hsub1 by by apply insert_subseteq.
  pose proof (memo_measure_insert h0 ρ l l' (mk_is_Some _ _ Hl) Hρ) as Hlt.
  destruct (copy_all_ok
              (copy_element (keyed o) frames2 (deepcopy frames2)) frames2
              (P ∪ {[l]})
              (copy_element_ok (keyed o) frames2 (deepcopy frames2)
                 (P ∪ {[l]})
                 (λ v ρ h, IH frames2 ltac:(lia) v (P ∪ {[l]}) ρ h))
              (children o) _ _ Hinv1 (closed_children l o Hl))
    as [Hpost Hen].
  destruct (copy_all (copy_element (keyed o) frames2 (deepcopy frames2))
              (children o) (<[l:=l']> ρ, <[l':=blank o]> h))
    as [vs2 [ρ2 h2]|[ρ2 h2]|]; simpl in *; [| |done].
  - destruct Hpost as (-> & Hsub2 & Hin2 & Hinv2). split; [|done].
    rewrite rebuild_rename.
    assert (ρ2 !! l = Some l') as Hρ2.
    { eapply lookup_weaken; [|exact Hsub2]. apply lookup_insert_eq. }
    rewrite Hρ2. split_and!.
    + done.
    + by etrans.
    + eauto.
    + by eapply copy_inv_fill.
  - split; [done|]. intros Hsz. apply Hen. lia.
Qed.

(** [copy.deepcopy] on a closed store, when the frames are enough for it:
    it returns a renaming of its argument along a memo that satisfies the
    invariant with no copy left unfinished. *)
Lemma copy_deepcopy_ok frames v :
  closed_val h0 v → deepcopy_completes frames h0 v = true →
  ∃ ρ h', copy_deepcopy frames v h0 = Ok (rename_val ρ v) h' ∧
          in_memo ρ v ∧ copy_inv h0 ∅ ρ h'.
Proof.
  intros Hv. unfold deepcopy_completes, copy_deepcopy.
  destruct (deepcopy_ok frames v ∅ ∅ h0 copy_inv_init Hv) as [Hpost _].
  destruct (deepcopy frames v (∅, h0)) as [v' [ρ h']|[ρ h']|]; try done.
  destruct Hpost as (-> & _ & Hin & Hinv). intros _. by exists ρ, h'.
Qed.

(** When the frames are not enough it raises RecursionError, and the
    objects of the store are as they were. *)
Lemma copy_deepcopy_too_deep frames v :
  closed_val h0 v → deepcopy_completes frames h0 v = false →
  ∃ h', copy_deepcopy frames v h0 = Raise RecursionError h' ∧ h0 ⊆ h'.
Proof.
  intros Hv. unfold deepcopy_completes, copy_deepcopy.
  destruct (deepcopy_ok frames v ∅ ∅ h0 copy_inv_init Hv) as [Hpost _].
  destruct (deepcopy frames v (∅, h0)) as [v' [ρ h']|[ρ h']|]; try done.
  intros _. by exists h'.
Qed.

End deepcopy_correct.

(** ** More frames never hurt *)

Lemma copy_all_mono (f g : val → memo * heap → copied val) :
  (∀ v st r st', f v st = Copied r st' → g v st = Copied r st') →
  ∀ vs st rs st', copy_all f vs st = Copied rs st' →
                  copy_all g vs st = Copied rs st'.
Proof.
  intros Hfg vs. induction vs as [|v vs IH]; intros st rs st' Hrun; [done|].
  simpl in *. destruct (f v st) as [r1 st1|?|] eqn:Hv; [|done..].
  rewrite (Hfg _ _ _ _ Hv).
  destruct (copy_all f vs st1) as [rs2 st2|?|] eqn:Hvs; [|done..].
  by rewrite (IH _ _ _ Hvs).
Qed.

Lemma copy_element_mono isd n m (f g : val → memo * heap → copied val) :
  n ≤ m →
  (∀ v st r st', f v st = Copied r st' → g v st = Copied r st') →
  ∀ v st r st', copy_element isd n f v st = Copied r st' →
                copy_element isd m g v st = Copied r st'.
Proof.
  intros Hnm Hfg v st r st'. unfold copy_element.
  destruct (f v st) as [r1 st1|?|] eqn:Hv; [|done..].
  rewrite (Hfg _ _ _ _ Hv). destruct isd; [|done].
  destruct n as [|[|n]]; [done..|]. destruct m as [|[|m]]; [lia..|done].
Qed.

Lemma deepcopy_mono n : ∀ m v st r st',
  n ≤ m → deepcopy n v st = Copied r st' → deepcopy m v st = Copied r st'.
Proof.
  induction n as [n IH] using lt_wf_ind. intros m v st r st' Hnm Hrun.
  destruct n as [|n1]; [done|]. destruct m as [|m1]; [lia|].
  destruct v as [| | | |l].
  1-4: destruct n1; [done|]; destruct m1; [lia|done].
  cbn [deepcopy] in *. destruct (st.1 !! l) as [lc|]; [done|].
  destruct (st.2 !! l) as [o|]; [|done].
  destruct n1 as [|n2]; [done|]. destruct m1 as [|m2]; [lia|].
  set (l' := fresh (dom st.2)) in *.
  destruct (copy_all (copy_element (keyed o) n2 (deepcopy n2)) (children o)
              (<[l:=l']> st.1, <[l':=blank o]> st.2))
    as [rs st2|?|] eqn:Hvs; [|done..].
  erewrite copy_all_mono; [exact Hrun| |exact Hvs].
  apply copy_element_mono; [lia|]. intros v' s r' s'. apply IH; lia.
Qed.

(** A deep copy that does not get by with [m] frames does not get by with
    fewer. *)
Lemma deepcopy_completes_mono n m h v :
  n ≤ m → deepcopy_completes m h v = false →
  deepcopy_completes n h v = false.
Proof.
  intros Hnm. unfold deepcopy_completes.
  destruct (deepcopy n v (∅, h)) as [r st|?|] eqn:Hn; [|done..].
  by rewrite (deepcopy_mono n m v _ r st Hnm Hn).
Qed.

(** The copy made by [copy.deepcopy] is observably equal to the original,
    in the store it returns and in every store that differs from it only
    at objects that existed before the copy was made. *)
Lemma view_copy h0 ρ h' h2 :
  closed_heap h0 → copy_inv h0 ∅ ρ h' →
  (∀ l, h0 !! l = None → is_Some (h' !! l) → h2 !! l = h' !! l) →
  ∀ n v, closed_val h0 v → in_memo ρ v →
         view n h2 (rename_val ρ v) = view n h0 v.
Proof.
  intros Hcl Hinv Hagree n. induction n as [|n IH]; intros v Hv Hin;
    destruct v as [| | | |l]; try done.
  destruct Hin as [l' Hl']. simpl. rewrite Hl'. simpl.
  destruct (inv_done _ _ _ _ Hinv l l' Hl') as (o & Ho & Hall & Hh');
    [set_solver|].
  destruct (inv_memo _ _ _ _ Hinv l l' Hl') as (_ & Hfresh & Hsome).
  rewrite (Hagree l' Hfresh Hsome), Hh', Ho.
  pose proof (Hcl l o Ho) as Hclo. simpl in Hclo.
  rewrite Forall_forall in Hall, Hclo.
  destruct o as [d|vs]; simpl; f_equal.
  - rewrite <- map_fmap_compose. apply map_fmap_ext. intros k v Hk. simpl.
    apply IH; [apply Hclo|apply Hall]; by eapply children_lookup.
  - rewrite <- list_fmap_compose. apply list_fmap_ext.
    intros i v Hi. simpl. apply list_elem_of_lookup_2 in Hi.
    apply IH; [by apply Hclo|by apply Hall].
Qed.

(** ** dict.pop *)

Lemma bind_Ok {A B} (m : M A) (f : A → M B) h a h' :
  m h = Ok a h' → (m ≫= f) h = f a h'.
Proof. intros Hm. unfold mbind, M_bind. by rewrite Hm. Qed.

Lemma bind_Raise {A B} (m : M A) (f : A → M B) h e h' :
  m h = Raise e h' → (m ≫= f) h = Raise e h'.
Proof. intros Hm. unfold mbind, M_bind. by rewrite Hm. Qed.

Lemma dict_pop_required l d k v h :
  h !! l = Some (ODict d) → d !! k = Some v →
  dict_pop (VRef l) k None h = Ok v (<[l := ODict (delete k d)]> h).
Proof. intros Hl Hk. unfold dict_pop. by rewrite Hl, Hk. Qed.

Lemma dict_pop_missing l d k h :
  h !! l = Some (ODict d) → d !! k = None →
  dict_pop (VRef l) k None h = Raise (KeyError k) h.
Proof. intros Hl Hk. unfold dict_pop. by rewrite Hl, Hk. Qed.

Lemma dict_pop_default l d k dv h :
  h !! l = Some (ODict d) →
  dict_pop (VRef l) k (Some dv) h
  = Ok (default dv (d !! k)) (<[l := ODict (delete k d)]> h).
Proof.
  intros Hl. unfold dict_pop. rewrite Hl.
  destruct (d !! k) as [v|] eqn:Hk; [done|].
  simpl. by rewrite delete_id, insert_id.
Qed.

Lemma lookup_popped ks d k :
  popped ks d !! k = if decide (k ∈ ks) then None else d !! k.
Proof.
  unfold popped. revert d. induction ks as [|k' ks IH]; intros d; cbn [foldl].
  - rewrite decide_False; [done|]. apply not_elem_of_nil.
  - rewrite IH. destruct (decide (k = k')) as [->|Hne].
    + rewrite lookup_delete_eq, (decide_True _ _ (list_elem_of_here k' ks)).
      by case_decide.
    + rewrite lookup_delete_ne by done.
      destruct (decide (k ∈ ks)) as [Hin|Hnin].
      * by rewrite decide_True by by right.
      * rewrite decide_False; [done|]. rewrite elem_of_cons. by intros [|].
Qed.

(** ** The constructor, step by step *)

Lemma Result_init_run frames b l d t h0 rawv h1 :
  copy_deepcopy frames (VRef l) h0 = Ok rawv h1 →
  h1 !! l = Some (ODict d) → d !! "text/plain" = Some t →
  Result_init frames b (VRef l) h0
  = Ok (split_fields b rawv (VRef l) d)
       (<[l := ODict (popped well_known d)]> h1).
Proof.
  intros Hcopy Hl Ht. unfold Result_init.
  rewrite (bind_Ok _ _ _ _ _ Hcopy).
  rewrite (bind_Ok _ _ _ _ _ (dict_pop_required l d _ t h1 Hl Ht)).
  do 9 (erewrite bind_Ok by (apply dict_pop_default, lookup_insert_eq);
        rewrite insert_insert_eq).
  unfold mret, M_ret, split_fields, entry. rewrite Ht.
  rewrite !lookup_delete_ne by done. reflexivity.
Qed.

(** On a closed store the constructor returns whenever the dictionary has
    the key "text/plain" and the frames are enough for the deep copy: the
    fields are the entries of the dictionary, [raw] is the deep copy, and
    the dictionary passed in is left with the well-known keys popped. *)
Lemma Result_init_ok frames b l d t h0 :
  closed_heap h0 → h0 !! l = Some (ODict d) → d !! "text/plain" = Some t →
  deepcopy_completes frames h0 (VRef l) = true →
  ∃ ρ h1,
    Result_init frames b (VRef l) h0
    = Ok (split_fields b (rename_val ρ (VRef l)) (VRef l) d)
         (<[l := ODict (popped well_known d)]> h1) ∧
    in_memo ρ (VRef l) ∧ copy_inv h0 ∅ ρ h1.
Proof.
  intros Hcl Hl Ht Hfit.
  destruct (copy_deepcopy_ok h0 Hcl frames (VRef l))
    as (ρ & h1 & Hcopy & Hin & Hinv); [simpl; eauto|done|].
  exists ρ, h1. split_and!; [|done..].
  eapply Result_init_run; [done| |done].
  eapply lookup_weaken; [exact Hl|]. by eapply inv_frame.
Qed.

(** When the frames are not enough for the deep copy, the constructor
    raises RecursionError and the objects of the store are as they
    were. *)
Lemma Result_init_too_deep frames b data h0 :
  closed_heap h0 → closed_val h0 data →
  deepcopy_completes frames h0 data = false →
  ∃ h1, Result_init frames b data h0 = Raise RecursionError h1 ∧ h0 ⊆ h1.
Proof.
  intros Hcl Hv Hfit.
  destruct (copy_deepcopy_too_deep h0 Hcl frames data Hv Hfit)
    as (h1 & Hcopy & Hsub).
  exists h1. split; [|done]. unfold Result_init. by apply bind_Raise.
Qed.

(** Without the key "text/plain" the constructor raises: KeyError when the
    deep copy was made, RecursionError when it was not. *)
Lemma Result_init_no_text frames b l d h0 :
  closed_heap h0 → h0 !! l = Some (ODict d) → d !! "text/plain" = None →
  ∃ e h1, Result_init frames b (VRef l) h0 = Raise e h1 ∧ h0 ⊆ h1 ∧
    ((deepcopy_completes frames h0 (VRef l) = true ∧
      e = KeyError "text/plain") ∨
     (deepcopy_completes frames h0 (VRef l) = false ∧ e = RecursionError)).
Proof.
  intros Hcl Hl Hk.
  assert (closed_val h0 (VRef l)) as Hv by (simpl; eauto).
  destruct (deepcopy_completes frames h0 (VRef l)) eqn:Hfit.
  - destruct (copy_deepcopy_ok h0 Hcl frames (VRef l) Hv Hfit)
      as (ρ & h1 & Hcopy & _ & Hinv).
    pose proof (inv_frame _ _ _ _ Hinv) as Hsub.
    exists (KeyError "text/plain"), h1. split_and!; [|done|by left].
    unfold Result_init. rewrite (bind_Ok _ _ _ _ _ Hcopy).
    apply bind_Raise. eapply dict_pop_missing; [|exact Hk].
    by eapply lookup_weaken.
  - destruct (Result_init_too_deep frames b (VRef l) h0 Hcl Hv Hfit)
      as (h1 & Hrun & Hsub).
    exists RecursionError, h1. split_and!; [done..|by right].
Qed.

(** The objects that existed before the call, other than the dictionary
    passed in, are what they were. *)
Lemma copy_inv_frame_insert h0 ρ h1 l o l2 :
  copy_inv h0 ∅ ρ h1 → is_Some (h0 !! l2) → l2 ≠ l →
  <[l := o]> h1 !! l2 = h0 !! l2.
Proof.
  intros Hinv [o2 Hl2] Hne. rewrite lookup_insert_ne by done.
  rewrite Hl2. eapply lookup_weaken; [exact Hl2|]. by eapply inv_frame.
Qed.


(** * The claims

    A Result is constructed only when the deep copy made for [raw] stays
    within the recursion limit (C1); the theorems about a constructed
    Result have this as a hypothesis. *)

(** C1 (as the code has it): for every input mapping that contains the
    key "text/plain" and whose deep copy stays within the recursion limit,
    constructing a Result returns normally (it does not raise), and the
    [text] field of the new object is the value the mapping held under
    "text/plain". *)
Theorem Result_init_text frames b l d t h0 :
  closed_heap h0 → h0 !! l = Some (ODict d) → d !! "text/plain" = Some t →
  deepcopy_completes frames h0 (VRef l) = true →
  ∃ r h1, Result_init frames b (VRef l) h0 = Ok r h1 ∧ text r = t ∧
          is_main_result r = b.
Proof.
  intros Hcl Hl Ht Hfit.
  destruct (Result_init_ok frames b l d t h0 Hcl Hl Ht Hfit)
    as (ρ & h1 & Hrun & _).
  eexists _, _. split; [exact Hrun|]. simpl. unfold entry. by rewrite Ht.
Qed.

Lemma Result_init_text_witness :
  ∃ r h1, Result_init default_recursion_limit true (VRef 1%positive) ex_heap
          = Ok r h1 ∧
          text r = VStr "42" ∧ is_main_result r = true.
Proof.
  apply (Result_init_text default_recursion_limit true 1%positive ex_payload
           (VStr "42") ex_heap).
  - apply (bool_decide_unpack _). vm_compute. exact I.
  - reflexivity.
  - reflexivity.
  - vm_compute. reflexivity.
Defined.

(** C1, as stated, fails: the payload [deep_heap 600] is a mapping of a
    closed store that contains "text/plain", with a JSON value nested 600
    deep, and with all the frames of the default recursion limit at its
    disposal the constructor raises RecursionError; so it does with any
    smaller number of frames, which is what a call finds left. *)
Lemma Result_init_text_deep_counterexample :
  closed_heap (deep_heap 600) ∧
  deep_heap 600 !! 1%positive = Some (ODict deep_payload) ∧
  deep_payload !! "text/plain" = Some (VStr "42") ∧
  raised (Result_init default_recursion_limit true (VRef 1%positive)
            (deep_heap 600)) = Some RecursionError ∧
  ∀ frames, frames ≤ default_recursion_limit →
    raised (Result_init frames true (VRef 1%positive) (deep_heap 600))
    = Some RecursionError.
Proof.
  assert (closed_heap (deep_heap 600)) as Hcl.
  { apply (bool_decide_unpack _). vm_compute. exact I. }
  split_and!; [exact Hcl|reflexivity|reflexivity|vm_compute; reflexivity|].
  intros frames Hle.
  destruct (Result_init_too_deep frames true (VRef 1%positive)
              (deep_heap 600) Hcl) as (h1 & Hrun & _).
  - apply (bool_decide_unpack _). vm_compute. exact I.
  - apply (deepcopy_completes_mono frames default_recursion_limit);
      [exact Hle|].
    vm_compute. reflexivity.
  - rewrite Hrun. reflexivity.
Qed.

(** C2 (as the code has it): for every input mapping that does not
    contain the key "text/plain", constructing a Result raises, no Result
    is produced (so no default stands in for [text]) and the mapping is
    as it was; the exception is KeyError for that key when the deep copy
    of the mapping stays within the recursion limit, and the
    RecursionError of the deep copy otherwise. *)
Theorem Result_init_missing_text frames b l d h0 :
  closed_heap h0 → h0 !! l = Some (ODict d) → d !! "text/plain" = None →
  ∃ e h1, Result_init frames b (VRef l) h0 = Raise e h1 ∧
    h1 !! l = Some (ODict d) ∧
    (deepcopy_completes frames h0 (VRef l) = true →
     e = KeyError "text/plain") ∧
    (deepcopy_completes frames h0 (VRef l) = false → e = RecursionError).
Proof.
  intros Hcl Hl Hk.
  destruct (Result_init_no_text frames b l d h0 Hcl Hl Hk)
    as (e & h1 & Hrun & Hsub & Hcases).
  exists e, h1. split_and!; [done|by eapply lookup_weaken|..];
    intros Hfit; destruct Hcases as [[? ?]|[? ?]]; congruence.
Qed.

Lemma Result_init_missing_text_witness :
  ∃ e h1, Result_init default_recursion_limit false (VRef 2%positive) ex_heap
          = Raise e h1 ∧
    h1 !! 2%positive = Some (ODict (<["rows" := VRef 3%positive]> ∅)) ∧
    (deepcopy_completes default_recursion_limit ex_heap (VRef 2%positive)
     = true → e = KeyError "text/plain") ∧
    (deepcopy_completes default_recursion_limit ex_heap (VRef 2%positive)
     = false → e = RecursionError).
Proof.
  apply (Result_init_missing_text default_recursion_limit false 2%positive
           (<["rows" := VRef 3%positive]> ∅) ex_heap).
  - apply (bool_decide_unpack _). vm_compute. exact I.
  - reflexivity.
  - reflexivity.
Defined.

(** C2, as stated, fails: the mapping of [deep_heap_no_text 600] has no
    "text/plain", and with all the frames of the default recursion limit
    at its disposal, or any smaller number, the constructor raises
    RecursionError, not KeyError. *)
Lemma Result_init_missing_text_deep_counterexample :
  closed_heap (deep_heap_no_text 600) ∧
  deep_heap_no_text 600 !! 1%positive = Some (ODict deep_payload_no_text) ∧
  deep_payload_no_text !! "text/plain" = None ∧
  raised (Result_init default_recursion_limit true (VRef 1%positive)
            (deep_heap_no_text 600)) = Some RecursionError ∧
  ∀ frames, frames ≤ default_recursion_limit →
    raised (Result_init frames true (VRef 1%positive) (deep_heap_no_text 600))
    = Some RecursionError.
Proof.
  assert (closed_heap (deep_heap_no_text 600)) as Hcl.
  { apply (bool_decide_unpack _). vm_compute. exact I. }
  split_and!; [exact Hcl|reflexivity|reflexivity|vm_compute; reflexivity|].
  intros frames Hle.
  destruct (Result_init_too_deep frames true (VRef 1%positive)
              (deep_heap_no_text 600) Hcl) as (h1 & Hrun & _).
  - apply (bool_decide_unpack _). vm_compute. exact I.
  - apply (deepcopy_completes_mono frames default_recursion_limit);
      [exact Hle|].
    vm_compute. reflexivity.
  - rewrite Hrun. reflexivity.
Qed.

(** ** What the constructor does to the dictionary it is given *)

Lemma named_fields_keys : named_fields.*1 = well_known.
Proof. reflexivity. Qed.

Lemma named_fields_entry b rv dv d k f :
  (k, f) ∈ named_fields → f (split_fields b rv dv d) = entry d k.
Proof.
  unfold named_fields. intros Hin.
  repeat (apply elem_of_cons in Hin as [[= -> ->]|Hin]; [reflexivity|]).
  by apply elem_of_nil in Hin.
Qed.

Lemma named_fields_well_known k f : (k, f) ∈ named_fields → k ∈ well_known.
Proof.
  intros Hin. rewrite <- named_fields_keys. apply list_elem_of_fmap.
  by exists (k, f).
Qed.

(** C3 (as the code has it): for every input mapping containing
    "text/plain" from which a Result is constructed, the constructor
    leaves every object that existed before the call as it was, except
    the mapping passed in: the well-known keys are popped from the
    caller's mapping itself, whose other keys keep their values. *)
Theorem Result_init_frame frames b l d t h0 :
  closed_heap h0 → h0 !! l = Some (ODict d) → d !! "text/plain" = Some t →
  deepcopy_completes frames h0 (VRef l) = true →
  ∃ r h1, Result_init frames b (VRef l) h0 = Ok r h1 ∧
    (∀ l2, is_Some (h0 !! l2) → l2 ≠ l → h1 !! l2 = h0 !! l2) ∧
    ∃ d', h1 !! l = Some (ODict d') ∧
          (∀ k, k ∉ well_known → d' !! k = d !! k) ∧
          (∀ k, k ∈ well_known → d' !! k = None).
Proof.
  intros Hcl Hl Ht Hfit.
  destruct (Result_init_ok frames b l d t h0 Hcl Hl Ht Hfit) as (ρ & h1 & Hrun & _ & Hinv).
  eexists _, _. split; [exact Hrun|]. split.
  - intros l2 Hl2 Hne. by eapply copy_inv_frame_insert.
  - exists (popped well_known d). rewrite lookup_insert_eq.
    split_and!; [done| |]; intros k Hk; rewrite lookup_popped; by case_decide.
Qed.

Lemma Result_init_frame_witness :
  ∃ r h1, Result_init default_recursion_limit true (VRef 1%positive) ex_heap = Ok r h1 ∧
    (∀ l2, is_Some (ex_heap !! l2) → l2 ≠ 1%positive →
           h1 !! l2 = ex_heap !! l2) ∧
    ∃ d', h1 !! 1%positive = Some (ODict d') ∧
          (∀ k, k ∉ well_known → d' !! k = ex_payload !! k) ∧
          (∀ k, k ∈ well_known → d' !! k = None).
Proof.
  apply (Result_init_frame default_recursion_limit true 1%positive ex_payload (VStr "42") ex_heap).
  - apply (bool_decide_unpack _). vm_compute. exact I.
  - reflexivity.
  - reflexivity.
  - vm_compute. reflexivity.
Defined.

(** C3, as stated, fails: constructing a Result from the one-dictionary
    store [small_heap] returns, and the caller's dictionary, which held
    "text/plain" and "image/png", is empty afterwards. *)
Lemma Result_init_input_unchanged_counterexample :
  ∃ r h1, Result_init default_recursion_limit true (VRef 1%positive)
            small_heap = Ok r h1 ∧
          small_heap !! 1%positive = Some (ODict small_payload) ∧
          h1 !! 1%positive = Some (ODict ∅) ∧
          h1 !! 1%positive ≠ small_heap !! 1%positive.
Proof.
  eexists _, _. split; [vm_compute; reflexivity|].
  split_and!; [reflexivity..|]. vm_compute. discriminate.
Qed.

(** C5: for every input mapping containing "text/plain" and each of the
    ten well-known MIME keys: if the key is in the input, its named field
    is the key's value and the key is not in [extra]; if an optional key
    is not in the input, its named field is None. *)
Theorem Result_init_named_fields frames b l d t h0 :
  closed_heap h0 → h0 !! l = Some (ODict d) → d !! "text/plain" = Some t →
  deepcopy_completes frames h0 (VRef l) = true →
  ∃ r h1 ed, Result_init frames b (VRef l) h0 = Ok r h1 ∧
    extra r = VRef l ∧ h1 !! l = Some (ODict ed) ∧
    ∀ k f, (k, f) ∈ named_fields →
      (∀ v, d !! k = Some v → f r = v ∧ ed !! k = None) ∧
      (k ≠ "text/plain" → d !! k = None → f r = VNone).
Proof.
  intros Hcl Hl Ht Hfit.
  destruct (Result_init_ok frames b l d t h0 Hcl Hl Ht Hfit) as (ρ & h1 & Hrun & _).
  eexists _, _, (popped well_known d). split; [exact Hrun|].
  rewrite lookup_insert_eq. split_and!; [done..|].
  intros k f Hin. rewrite (named_fields_entry _ _ _ _ _ _ Hin).
  unfold entry. split.
  - intros v Hv. rewrite Hv. split; [done|]. rewrite lookup_popped.
    rewrite decide_True; [done|]. by eapply named_fields_well_known.
  - intros _ Hk. by rewrite Hk.
Qed.

Lemma Result_init_named_fields_witness :
  ∃ r h1 ed, Result_init default_recursion_limit true (VRef 1%positive) ex_heap = Ok r h1 ∧
    extra r = VRef 1%positive ∧ h1 !! 1%positive = Some (ODict ed) ∧
    ∀ k f, (k, f) ∈ named_fields →
      (∀ v, ex_payload !! k = Some v → f r = v ∧ ed !! k = None) ∧
      (k ≠ "text/plain" → ex_payload !! k = None → f r = VNone).
Proof.
  apply (Result_init_named_fields default_recursion_limit true 1%positive ex_payload (VStr "42")
           ex_heap).
  - apply (bool_decide_unpack _). vm_compute. exact I.
  - reflexivity.
  - reflexivity.
  - vm_compute. reflexivity.
Defined.

(** C6: for every input mapping containing "text/plain", every key of
    the input that is not well-known is in [extra] with its value, and
    [extra] has no well-known key and no key that the input did not
    have. *)
Theorem Result_init_extra frames b l d t h0 :
  closed_heap h0 → h0 !! l = Some (ODict d) → d !! "text/plain" = Some t →
  deepcopy_completes frames h0 (VRef l) = true →
  ∃ r h1 ed, Result_init frames b (VRef l) h0 = Ok r h1 ∧
    extra r = VRef l ∧ h1 !! l = Some (ODict ed) ∧
    (∀ k v, k ∉ well_known → d !! k = Some v → ed !! k = Some v) ∧
    (∀ k, k ∈ well_known → ed !! k = None) ∧
    (∀ k, is_Some (ed !! k) → is_Some (d !! k)).
Proof.
  intros Hcl Hl Ht Hfit.
  destruct (Result_init_ok frames b l d t h0 Hcl Hl Ht Hfit) as (ρ & h1 & Hrun & _).
  eexists _, _, (popped well_known d). split; [exact Hrun|].
  assert (∀ k, k ∈ well_known → popped well_known d !! k = None) as Hwk.
  { intros k Hk. rewrite lookup_popped. by case_decide. }
  split_and!.
  - done.
  - by rewrite lookup_insert_eq.
  - intros k v Hk Hv. rewrite lookup_popped. by case_decide.
  - done.
  - intros k. rewrite lookup_popped. case_decide; [|done].
    by intros [? ?].
Qed.

Lemma Result_init_extra_witness :
  ∃ r h1 ed, Result_init default_recursion_limit true (VRef 1%positive) ex_heap = Ok r h1 ∧
    extra r = VRef 1%positive ∧ h1 !! 1%positive = Some (ODict ed) ∧
    (∀ k v, k ∉ well_known → ex_payload !! k = Some v → ed !! k = Some v) ∧
    (∀ k, k ∈ well_known → ed !! k = None) ∧
    (∀ k, is_Some (ed !! k) → is_Some (ex_payload !! k)).
Proof.
  apply (Result_init_extra default_recursion_limit true 1%positive ex_payload (VStr "42") ex_heap).
  - apply (bool_decide_unpack _). vm_compute. exact I.
  - reflexivity.
  - reflexivity.
  - vm_compute. reflexivity.
Defined.

(** ** The copy kept in [raw] *)

Lemma field_of_well_known b rv dv d k :
  k ∈ well_known → field_of (split_fields b rv dv d) k = Some (entry d k).
Proof.
  unfold well_known. intros Hin.
  repeat (apply elem_of_cons in Hin as [->|Hin]; [reflexivity|]).
  by apply elem_of_nil in Hin.
Qed.

Lemma field_of_other r k : k ∉ well_known → field_of r k = None.
Proof.
  intros Hk. unfold field_of.
  rewrite (not_elem_of_list_to_map_1 _ k); [done|].
  by rewrite named_fields_keys.
Qed.

Lemma reconstruct_split_fields b rv dv d (f : val → val) :
  reconstruct (split_fields b rv dv d) (f <$> d) (popped well_known d) = d.
Proof.
  apply map_eq. intros k. unfold reconstruct.
  rewrite map_lookup_imap, lookup_fmap.
  destruct (d !! k) as [v|] eqn:Hk; [|done].
  destruct (decide (k ∈ well_known)) as [Hin|Hnin].
  - rewrite field_of_well_known by done. unfold entry. by rewrite Hk.
  - rewrite field_of_other, lookup_popped, decide_False, Hk by done.
    reflexivity.
Qed.

(** C4: for every input mapping containing "text/plain", [raw] is a deep
    copy of the input as it was: a new object whose value, unfolded to any
    depth, is the value the input had, in the store the constructor
    returns and in every store obtained from it by changing objects that
    existed before the call (the input mapping among them); and the named
    fields and [extra], read along the keys of [raw], give back the input
    mapping exactly. *)
Theorem Result_init_raw frames b l d t h0 :
  closed_heap h0 → h0 !! l = Some (ODict d) → d !! "text/plain" = Some t →
  deepcopy_completes frames h0 (VRef l) = true →
  ∃ r h1 lr rd ed, Result_init frames b (VRef l) h0 = Ok r h1 ∧
    raw r = VRef lr ∧ h0 !! lr = None ∧
    (∀ h2, (∀ l', h0 !! l' = None → is_Some (h1 !! l') → h2 !! l' = h1 !! l') →
           ∀ n, view n h2 (raw r) = view n h0 (VRef l)) ∧
    h1 !! lr = Some (ODict rd) ∧ extra r = VRef l ∧
    h1 !! l = Some (ODict ed) ∧ reconstruct r rd ed = d.
Proof.
  intros Hcl Hl Ht Hfit.
  destruct (Result_init_ok frames b l d t h0 Hcl Hl Ht Hfit)
    as (ρ & h1 & Hrun & Hin & Hinv).
  destruct Hin as [lr Hlr].
  destruct (inv_memo _ _ _ _ Hinv l lr Hlr) as (_ & Hfresh & _).
  destruct (inv_done _ _ _ _ Hinv l lr Hlr) as (o & Ho & _ & Hraw);
    [set_solver|].
  assert (o = ODict d) as -> by congruence.
  assert (lr ≠ l) as Hne by congruence.
  eexists _, _, lr, (rename_val ρ <$> d), (popped well_known d).
  split; [exact Hrun|]. split_and!.
  - simpl. by rewrite Hlr.
  - done.
  - intros h2 Hagree n.
    refine (view_copy h0 ρ h1 h2 Hcl Hinv _ n (VRef l) _ _);
      [|simpl; eauto..].
    intros l' Hl' Hsome. rewrite Hagree; [|done|].
    + apply lookup_insert_ne. congruence.
    + rewrite lookup_insert_ne; [done|congruence].
  - by rewrite lookup_insert_ne.
  - done.
  - by rewrite lookup_insert_eq.
  - apply reconstruct_split_fields.
Qed.

Lemma Result_init_raw_witness :
  ∃ r h1 lr rd ed, Result_init default_recursion_limit true (VRef 1%positive) ex_heap = Ok r h1 ∧
    raw r = VRef lr ∧ ex_heap !! lr = None ∧
    (∀ h2, (∀ l', ex_heap !! l' = None → is_Some (h1 !! l') →
                  h2 !! l' = h1 !! l') →
           ∀ n, view n h2 (raw r) = view n ex_heap (VRef 1%positive)) ∧
    h1 !! lr = Some (ODict rd) ∧ extra r = VRef 1%positive ∧
    h1 !! 1%positive = Some (ODict ed) ∧ reconstruct r rd ed = ex_payload.
Proof.
  apply (Result_init_raw default_recursion_limit true 1%positive ex_payload (VStr "42") ex_heap).
  - apply (bool_decide_unpack _). vm_compute. exact I.
  - reflexivity.
  - reflexivity.
  - vm_compute. reflexivity.
Defined.

(** The two scenarios of the description. *)
Example scenario_text_and_png :
  ∃ r h1, Result_init default_recursion_limit true (VRef 1%positive)
            small_heap = Ok r h1 ∧
          text r = VStr "42" ∧ png r = VStr "iVBORw0K" ∧ html r = VNone ∧
          extra r = VRef 1%positive ∧ h1 !! 1%positive = Some (ODict ∅) ∧
          view 1 h1 (raw r) = view 1 small_heap (VRef 1%positive).
Proof. eexists _, _. split; [vm_compute; reflexivity|]. by vm_compute. Qed.

Example scenario_custom_type :
  ∃ r h1, Result_init default_recursion_limit false (VRef 1%positive)
            custom_heap = Ok r h1 ∧
          extra r = VRef 1%positive ∧
          h1 !! 1%positive
          = Some (ODict {["application/x-custom" := VStr "xyz"]}).
Proof. eexists _, _. split; [vm_compute; reflexivity|]. by vm_compute. Qed.

(** C9: for every input mapping containing "text/plain", when the
    constructor has returned the caller's mapping holds exactly its keys
    that are not well-known, with their values, and [extra] is that very
    object: writing an entry of the caller's mapping afterwards is read
    back through [extra]. *)
Theorem Result_init_extra_is_input frames b l d t h0 :
  closed_heap h0 → h0 !! l = Some (ODict d) → d !! "text/plain" = Some t →
  deepcopy_completes frames h0 (VRef l) = true →
  ∃ r h1 ed, Result_init frames b (VRef l) h0 = Ok r h1 ∧
    h1 !! l = Some (ODict ed) ∧
    (∀ k, ed !! k = if decide (k ∈ well_known) then None else d !! k) ∧
    extra r = VRef l ∧
    ∀ k v, ∃ h2, dict_setitem (VRef l) k v h1 = Ok () h2 ∧
                 dict_getitem (extra r) k h2 = Ok v h2.
Proof.
  intros Hcl Hl Ht Hfit.
  destruct (Result_init_ok frames b l d t h0 Hcl Hl Ht Hfit) as (ρ & h1 & Hrun & _).
  eexists _, _, (popped well_known d). split; [exact Hrun|].
  split_and!.
  - by rewrite lookup_insert_eq.
  - intros k. apply lookup_popped.
  - done.
  - intros k v. eexists. unfold dict_setitem, dict_getitem. simpl.
    rewrite lookup_insert_eq. split; [done|].
    by rewrite !lookup_insert_eq.
Qed.

Lemma Result_init_extra_is_input_witness :
  ∃ r h1 ed, Result_init default_recursion_limit true (VRef 1%positive) ex_heap = Ok r h1 ∧
    h1 !! 1%positive = Some (ODict ed) ∧
    (∀ k, ed !! k = if decide (k ∈ well_known) then None
                    else ex_payload !! k) ∧
    extra r = VRef 1%positive ∧
    ∀ k v, ∃ h2, dict_setitem (VRef 1%positive) k v h1 = Ok () h2 ∧
                 dict_getitem (extra r) k h2 = Ok v h2.
Proof.
  apply (Result_init_extra_is_input default_recursion_limit true 1%positive ex_payload (VStr "42")
           ex_heap).
  - apply (bool_decide_unpack _). vm_compute. exact I.
  - reflexivity.
  - reflexivity.
  - vm_compute. reflexivity.
Defined.

(** ** Execution.text *)

Lemma Execution_text_loop_skip pre ds :
  Forall (λ x, is_main_result x = false) pre →
  Execution_text_loop (pre ++ ds) = Execution_text_loop ds.
Proof.
  induction 1 as [|x pre Hx _ IH]; [done|]. simpl. by rewrite Hx.
Qed.

(** C7: the [text] accessor of an Execution returns the [text] of the
    first Result, in the order of [results], whose [is_main_result] is
    true; it returns None (and raises nothing) when no Result is marked
    main, in particular when [results] is empty; for two Results of which
    only the second is main it returns the text of the second. *)
Theorem Execution_text_first_main :
  (∀ e pre d post,
     results e = pre ++ d :: post →
     Forall (λ x, is_main_result x = false) pre → is_main_result d = true →
     Execution_text e = text d) ∧
  (∀ e, Forall (λ x, is_main_result x = false) (results e) →
        Execution_text e = VNone) ∧
  (∀ lg er, Execution_text {| results := []; logs := lg; error := er |}
            = VNone) ∧
  (∀ r1 r2 lg er,
     is_main_result r1 = false → is_main_result r2 = true →
     Execution_text {| results := [r1; r2]; logs := lg; error := er |}
     = text r2).
Proof.
  split_and!.
  - intros e pre d post Hres Hpre Hd. unfold Execution_text.
    rewrite Hres, Execution_text_loop_skip by done. simpl. by rewrite Hd.
  - intros e Hall. unfold Execution_text.
    rewrite <- (app_nil_r (results e)).
    by rewrite Execution_text_loop_skip.
  - done.
  - intros r1 r2 lg er H1 H2. unfold Execution_text. simpl.
    by rewrite H1, H2.
Qed.

Lemma Execution_text_first_main_witness :
  Execution_text {| results := [display_result; main_result];
                    logs := no_logs; error := None |} = VStr "42".
Proof.
  apply (proj1 Execution_text_first_main
           {| results := [display_result; main_result];
              logs := no_logs; error := None |}
           [display_result] main_result []).
  - reflexivity.
  - repeat constructor.
  - reflexivity.
Defined.

(** ** Error.traceback *)

Lemma append_assoc (s1 s2 s3 : string) :
  (s1 +:+ s2) +:+ s3 = s1 +:+ s2 +:+ s3.
Proof.
  induction s1 as [|c s1 IH]; [done|].
  change (String c ((s1 +:+ s2) +:+ s3) = String c (s1 +:+ s2 +:+ s3)).
  by rewrite IH.
Qed.

Lemma str_join_cons_app sep a x rest :
  str_join sep ((a +:+ sep +:+ x) :: rest)
  = a +:+ sep +:+ str_join sep (x :: rest).
Proof.
  destruct rest as [|y rest]; [done|].
  change (((a +:+ sep +:+ x) +:+ sep +:+ str_join sep (y :: rest))
          = a +:+ sep +:+ x +:+ sep +:+ str_join sep (y :: rest)).
  by rewrite !append_assoc.
Qed.

Lemma str_join_foldl sep first others :
  foldl (λ acc line, acc +:+ sep +:+ line) first others
  = str_join sep (first :: others).
Proof.
  revert first. induction others as [|x others IH]; intros first; [done|].
  cbn [foldl]. by rewrite IH, str_join_cons_app.
Qed.

(** C8: the [traceback] of an Error is the lines of [traceback_raw]
    joined with newlines between them (the accessor computes a new string
    from the record and changes nothing); for the lines "line1" and
    "line2" it is "line1", a newline, "line2". *)
Theorem Error_traceback_joined :
  (∀ e, Error_traceback e = joined_with_newlines (traceback_raw e)) ∧
  (∀ n v, Error_traceback
            {| name := n; value := v; traceback_raw := ["line1"; "line2"] |}
          = "line1" +:+ newline +:+ "line2").
Proof.
  split; [|done]. intros [n v lines]. unfold Error_traceback. simpl.
  destruct lines as [|first others]; [done|].
  unfold joined_with_newlines. by rewrite str_join_foldl.
Qed.

(** C10: the [traceback] of an Error whose [traceback_raw] is the empty
    list is the empty string. *)
Theorem Error_traceback_empty n v :
  Error_traceback {| name := n; value := v; traceback_raw := [] |}
  = EmptyString.
Proof. reflexivity. Qed.

(** * Further properties of the code *)

(** ** The constructor keeps the store closed *)

Lemma Forall_children_dict (P : val → Prop) d :
  Forall P (children (ODict d)) ↔ ∀ k v, d !! k = Some v → P v.
Proof.
  unfold children. rewrite Forall_fmap, Forall_forall. split.
  - intros Hall k v Hk. apply (Hall (k, v)). by apply elem_of_map_to_list.
  - intros Hall [k v] Hin. apply elem_of_map_to_list in Hin. simpl. eauto.
Qed.

Lemma closed_val_weaken (h h' : heap) v :
  (∀ x, is_Some (h !! x) → is_Some (h' !! x)) →
  closed_val h v → closed_val h' v.
Proof. intros Hsub. destruct v; simpl; auto. Qed.

Lemma Forall_children_rename (P : val → Prop) ρ o :
  Forall (λ v, P (rename_val ρ v)) (children o) →
  Forall P (children (rename_obj ρ o)).
Proof.
  destruct o as [d|vs].
  - change (rename_obj ρ (ODict d)) with (ODict (rename_val ρ <$> d)).
    rewrite !Forall_children_dict. intros Hall k w.
    rewrite lookup_fmap_Some. intros (v & <- & Hv). eauto.
  - simpl. by rewrite Forall_fmap.
Qed.

Lemma copy_grows_refl ρ h : copy_grows ρ h ρ h.
Proof. split; [done|]. intros x Hx. by left. Qed.

Lemma copy_grows_trans ρ1 h1 ρ2 h2 ρ3 h3 :
  copy_grows ρ1 h1 ρ2 h2 → copy_grows ρ2 h2 ρ3 h3 → copy_grows ρ1 h1 ρ3 h3.
Proof.
  intros [Hs1 Hd1] [Hs2 Hd2]. split; [by etrans|].
  intros x Hx. destruct (Hd2 x Hx) as [Hx2|Hx2]; [|by right].
  destruct (Hd1 x Hx2) as [Hx1|[l Hl]]; [by left|].
  right. exists l. by eapply lookup_weaken.
Qed.

Lemma copy_all_grows f :
  (∀ v ρ h v' ρ' h',
     f v (ρ, h) = Copied v' (ρ', h') → copy_grows ρ h ρ' h') →
  ∀ vs ρ h vs' ρ' h',
    copy_all f vs (ρ, h) = Copied vs' (ρ', h') → copy_grows ρ h ρ' h'.
Proof.
  intros Hf vs. induction vs as [|v vs IH]; intros ρ h vs' ρ' h' Hrun.
  - injection Hrun as <- <- <-. apply copy_grows_refl.
  - simpl in Hrun.
    destruct (f v (ρ, h)) as [v1 [ρ1 h1]|?|] eqn:Hv; [|done..].
    destruct (copy_all f vs (ρ1, h1)) as [vs2 [ρ2 h2]|?|] eqn:Hvs; [|done..].
    injection Hrun as <- <- <-.
    eapply copy_grows_trans; [by eapply Hf|by eapply IH].
Qed.

Lemma copy_element_grows isd n g :
  (∀ v ρ h v' ρ' h',
     g v (ρ, h) = Copied v' (ρ', h') → copy_grows ρ h ρ' h') →
  ∀ v ρ h v' ρ' h',
    copy_element isd n g v (ρ, h) = Copied v' (ρ', h') →
    copy_grows ρ h ρ' h'.
Proof.
  intros Hg v ρ h v' ρ' h'. unfold copy_element.
  destruct (g v (ρ, h)) as [v1 [ρ1 h1]|?|] eqn:Hv; [|done..].
  destruct isd; [destruct n as [|[|n]]; [done..|]|]; simpl;
    intros [= <- <- <-]; by eapply Hg.
Qed.

Lemma deepcopy_grows frames : ∀ v ρ h v' ρ' h',
  deepcopy frames v (ρ, h) = Copied v' (ρ', h') → copy_grows ρ h ρ' h'.
Proof.
  induction frames as [frames IH] using lt_wf_ind.
  intros v ρ h v' ρ' h' Hrun.
  destruct frames as [|[|frames2]]; [done|..];
    (destruct v as [| | | |l];
     [try done; injection Hrun as <- <- <-; apply copy_grows_refl..|]);
    cbn [deepcopy fst snd] in Hrun; destruct (ρ !! l) as [lc|] eqn:Hρ;
    try (injection Hrun as <- <- <-; apply copy_grows_refl);
    (destruct (h !! l) as [o|] eqn:Hl; [|done]); [done|].
  set (l' := fresh (dom h)) in *.
  destruct (copy_all (copy_element (keyed o) frames2 (deepcopy frames2))
              (children o) (<[l:=l']> ρ, <[l':=blank o]> h))
    as [vs2 [ρ2 h2]|?|] eqn:Hvs; [|done..].
  simpl in Hrun. injection Hrun as <- <- <-.
  destruct (copy_all_grows _
              (copy_element_grows (keyed o) frames2 (deepcopy frames2)
                 (IH frames2 ltac:(lia)))
              _ _ _ _ _ _ Hvs) as [Hsub Hdom].
  assert (ρ2 !! l = Some l') as Hl2.
  { eapply lookup_weaken; [|exact Hsub]. apply lookup_insert_eq. }
  split.
  - etrans; [|exact Hsub]. by apply insert_subseteq.
  - intros x. rewrite lookup_insert_is_Some. intros [<-|[Hne Hx]].
    + right. by exists l.
    + destruct (Hdom x Hx) as [Hx'|?]; [|by right].
      apply lookup_insert_is_Some in Hx' as [?|[_ ?]]; [done|by left].
Qed.

Lemma copy_inv_closed h0 ρ h' :
  closed_heap h0 → copy_inv h0 ∅ ρ h' → copy_grows ∅ h0 ρ h' →
  closed_heap h'.
Proof.
  intros Hcl Hinv [_ Hdom] x o' Hx.
  assert (∀ y, is_Some (h0 !! y) → is_Some (h' !! y)) as Hmono.
  { intros y [oy Hy]. exists oy. eapply lookup_weaken; [exact Hy|].
    by eapply inv_frame. }
  destruct (Hdom x (mk_is_Some _ _ Hx)) as [[o Ho]|[l Hl]].
  - assert (o' = o) as ->.
    { pose proof (lookup_weaken _ _ _ _ Ho (inv_frame _ _ _ _ Hinv)).
      congruence. }
    eapply Forall_impl; [exact (Hcl x o Ho)|].
    intros v. by apply closed_val_weaken.
  - destruct (inv_done _ _ _ _ Hinv l x Hl) as (o & Ho & Hall & Hx');
      [set_solver|].
    assert (o' = rename_obj ρ o) as -> by congruence.
    apply Forall_children_rename.
    eapply Forall_impl; [exact Hall|]. intros [| | | |c]; try done.
    intros [c' Hc]. simpl. rewrite Hc. simpl.
    by destruct (inv_memo _ _ _ _ Hinv c c' Hc) as (_ & _ & ?).
Qed.

Lemma closed_heap_shrink (h : heap) l d d' :
  closed_heap h → h !! l = Some (ODict d) → d' ⊆ d →
  closed_heap (<[l := ODict d']> h).
Proof.
  intros Hcl Hl Hsub.
  assert (∀ v, closed_val h v → closed_val (<[l := ODict d']> h) v) as Hw.
  { intros v. apply closed_val_weaken. intros x Hx.
    apply lookup_insert_is_Some'. by right. }
  apply map_Forall_insert_2.
  - apply Forall_children_dict. intros k v Hk. apply Hw.
    assert (Forall (closed_val h) (children (ODict d))) as Hd
      by exact (Hcl l _ Hl).
    rewrite Forall_children_dict in Hd. apply (Hd k).
    by eapply lookup_weaken.
  - intros x o Hx. eapply Forall_impl; [exact (Hcl x o Hx)|]. exact Hw.
Qed.

Lemma popped_subseteq ks (d : gmap string val) : popped ks d ⊆ d.
Proof.
  apply map_subseteq_spec. intros k v. rewrite lookup_popped.
  by case_decide.
Qed.

(** [copy.deepcopy] on a closed store: the result of [copy_deepcopy_ok],
    and the store it leaves is closed again. *)
Lemma copy_deepcopy_closed frames h0 v :
  closed_heap h0 → closed_val h0 v →
  deepcopy_completes frames h0 v = true →
  ∃ ρ h', copy_deepcopy frames v h0 = Ok (rename_val ρ v) h' ∧
          in_memo ρ v ∧ copy_inv h0 ∅ ρ h' ∧ closed_heap h'.
Proof.
  intros Hcl Hv. unfold deepcopy_completes, copy_deepcopy.
  destruct (deepcopy_ok h0 Hcl frames v ∅ ∅ h0 (copy_inv_init h0) Hv)
    as [Hpost _].
  destruct (deepcopy frames v (∅, h0)) as [v' [ρ h']|[ρ h']|] eqn:Heq;
    try done.
  destruct Hpost as (-> & _ & Hin & Hinv). intros _.
  exists ρ, h'. split_and!; [done..|].
  eapply copy_inv_closed; [done..|]. by eapply deepcopy_grows.
Qed.

(** The constructor on a dictionary with "text/plain", with the store it
    leaves closed. *)
Lemma Result_init_closed frames b l d t h0 :
  closed_heap h0 → h0 !! l = Some (ODict d) → d !! "text/plain" = Some t →
  deepcopy_completes frames h0 (VRef l) = true →
  ∃ ρ h1,
    Result_init frames b (VRef l) h0
    = Ok (split_fields b (rename_val ρ (VRef l)) (VRef l) d)
         (<[l := ODict (popped well_known d)]> h1) ∧
    in_memo ρ (VRef l) ∧ copy_inv h0 ∅ ρ h1 ∧
    closed_heap (<[l := ODict (popped well_known d)]> h1).
Proof.
  intros Hcl Hl Ht Hfit.
  destruct (copy_deepcopy_closed frames h0 (VRef l) Hcl)
    as (ρ & h1 & Hcopy & Hin & Hinv & Hcl1); [simpl; eauto|done|].
  assert (h1 !! l = Some (ODict d)) as Hl1.
  { eapply lookup_weaken; [exact Hl|]. by eapply inv_frame. }
  exists ρ, h1. split_and!; [|done..|].
  - by eapply Result_init_run.
  - eapply closed_heap_shrink; [done..|]. apply popped_subseteq.
Qed.

(** The other ways the constructor fails once the deep copy is made. *)
Lemma Result_init_list frames b l vs h0 :
  closed_heap h0 → h0 !! l = Some (OList vs) →
  deepcopy_completes frames h0 (VRef l) = true →
  ∃ h1, Result_init frames b (VRef l) h0 = Raise TypeError h1 ∧ h0 ⊆ h1.
Proof.
  intros Hcl Hl Hfit.
  destruct (copy_deepcopy_ok h0 Hcl frames (VRef l))
    as (ρ & h1 & Hcopy & _ & Hinv); [simpl; eauto|done|].
  pose proof (inv_frame _ _ _ _ Hinv) as Hsub.
  exists h1. split; [|done].
  unfold Result_init. rewrite (bind_Ok _ _ _ _ _ Hcopy).
  apply bind_Raise. unfold dict_pop.
  by rewrite (lookup_weaken _ _ _ _ Hl Hsub).
Qed.

Lemma Result_init_atom frames b v h0 :
  (∀ l, v ≠ VRef l) → deepcopy_completes frames h0 v = true →
  Result_init frames b v h0 = Raise AttributeError h0.
Proof.
  intros Hv. destruct v as [| | | |l]; try by destruct (Hv l).
  all: by destruct frames as [|[|frames2]].
Qed.

Lemma dom_popped ks (d : gmap string val) :
  dom (popped ks d) = dom d ∖ list_to_set ks.
Proof.
  apply set_eq. intros k.
  rewrite elem_of_difference, elem_of_list_to_set, !elem_of_dom, lookup_popped.
  case_decide; [|naive_solver]. split; [by intros [? ?]|naive_solver].
Qed.

(** The entries of the input as [raw] has them: renamed along the memo. *)
Lemma Result_init_raw_dict frames b l d t h0 :
  closed_heap h0 → h0 !! l = Some (ODict d) → d !! "text/plain" = Some t →
  deepcopy_completes frames h0 (VRef l) = true →
  ∃ ρ h1 lr,
    Result_init frames b (VRef l) h0
    = Ok (split_fields b (VRef lr) (VRef l) d)
         (<[l := ODict (popped well_known d)]> h1) ∧
    copy_inv h0 ∅ ρ h1 ∧ ρ !! l = Some lr ∧ lr ≠ l ∧
    h1 !! lr = Some (ODict (rename_val ρ <$> d)) ∧
    (∀ k v, d !! k = Some v → in_memo ρ v) ∧
    closed_heap (<[l := ODict (popped well_known d)]> h1).
Proof.
  intros Hcl Hl Ht Hfit.
  destruct (Result_init_closed frames b l d t h0 Hcl Hl Ht Hfit)
    as (ρ & h1 & Hrun & [lr Hlr] & Hinv & Hcl1).
  destruct (inv_memo _ _ _ _ Hinv l lr Hlr) as (_ & Hfresh & _).
  destruct (inv_done _ _ _ _ Hinv l lr Hlr) as (o & Ho & Hall & Hraw);
    [set_solver|].
  assert (o = ODict d) as -> by congruence.
  rewrite Forall_children_dict in Hall.
  exists ρ, h1, lr. split_and!; try done.
  - rewrite Hrun. simpl. by rewrite Hlr.
  - congruence.
Qed.

(** X1: [keys()] of a constructed Result returns the keys the input had
    when the constructor was called, the well-known ones included although
    they were popped from the mapping, and keeps returning them whatever is
    done afterwards to objects that existed before the call. *)
Theorem Result_keys_are_input_keys frames b l d t h0 :
  closed_heap h0 → h0 !! l = Some (ODict d) → d !! "text/plain" = Some t →
  deepcopy_completes frames h0 (VRef l) = true →
  ∃ r h1 ed, Result_init frames b (VRef l) h0 = Ok r h1 ∧
    Result_keys r h1 = Ok (dom d) h1 ∧
    h1 !! l = Some (ODict ed) ∧ dom ed = dom d ∖ list_to_set well_known ∧
    ∀ h2, (∀ l', h0 !! l' = None → is_Some (h1 !! l') → h2 !! l' = h1 !! l') →
          Result_keys r h2 = Ok (dom d) h2.
Proof.
  intros Hcl Hl Ht Hfit.
  destruct (Result_init_raw_dict frames b l d t h0 Hcl Hl Ht Hfit)
    as (ρ & h1 & lr & Hrun & Hinv & Hlr & Hne & Hraw & _).
  destruct (inv_memo _ _ _ _ Hinv l lr Hlr) as (_ & Hfresh & _).
  eexists _, _, (popped well_known d). split; [exact Hrun|].
  assert (<[l:=ODict (popped well_known d)]> h1 !! lr
          = Some (ODict (rename_val ρ <$> d))) as Hraw1.
  { by rewrite lookup_insert_ne. }
  split_and!.
  - unfold Result_keys, split_fields. cbn [raw].
    by rewrite Hraw1, dom_fmap_L.
  - by rewrite lookup_insert_eq.
  - apply dom_popped.
  - intros h2 Hagree. unfold Result_keys, split_fields. cbn [raw].
    rewrite (Hagree lr Hfresh), Hraw1; [|by rewrite Hraw1].
    by rewrite dom_fmap_L.
Qed.

Lemma Result_keys_are_input_keys_witness :
  ∃ r h1 ed, Result_init default_recursion_limit true (VRef 1%positive) ex_heap = Ok r h1 ∧
    Result_keys r h1 = Ok (dom ex_payload) h1 ∧
    h1 !! 1%positive = Some (ODict ed) ∧
    dom ed = dom ex_payload ∖ list_to_set well_known ∧
    ∀ h2, (∀ l', ex_heap !! l' = None → is_Some (h1 !! l') →
                 h2 !! l' = h1 !! l') →
          Result_keys r h2 = Ok (dom ex_payload) h2.
Proof.
  apply (Result_keys_are_input_keys default_recursion_limit true 1%positive ex_payload (VStr "42")
           ex_heap).
  - apply (bool_decide_unpack _). vm_compute. exact I.
  - reflexivity.
  - reflexivity.
  - vm_compute. reflexivity.
Defined.

(** X2: the constructor uses its argument up: after a Result was
    constructed from a mapping, constructing another one from the same
    mapping (which is also the first one's [extra]) raises KeyError for
    "text/plain". *)

(** X2: the constructor uses its argument up: after a Result was
    constructed from a mapping, constructing another one from the same
    mapping (which is also the first one's [extra]) raises: KeyError for
    "text/plain" when the deep copy of what is left of the mapping stays
    within the recursion limit, the RecursionError of the deep copy
    otherwise. *)
Theorem Result_init_twice frames frames' b b' l d t h0 :
  closed_heap h0 → h0 !! l = Some (ODict d) → d !! "text/plain" = Some t →
  deepcopy_completes frames h0 (VRef l) = true →
  ∃ r h1 e h2, Result_init frames b (VRef l) h0 = Ok r h1 ∧
    Result_init frames' b' (extra r) h1 = Raise e h2 ∧
    ((deepcopy_completes frames' h1 (extra r) = true ∧
      e = KeyError "text/plain") ∨
     (deepcopy_completes frames' h1 (extra r) = false ∧
      e = RecursionError)).
Proof.
  intros Hcl Hl Ht Hfit.
  destruct (Result_init_closed frames b l d t h0 Hcl Hl Ht Hfit)
    as (ρ & h1 & Hrun & _ & _ & Hcl1).
  destruct (Result_init_no_text frames' b' l (popped well_known d) _ Hcl1)
    as (e & h2 & Hrun2 & _ & Hcases).
  { apply lookup_insert_eq. }
  { rewrite lookup_popped. by rewrite decide_True by apply list_elem_of_here. }
  eexists _, _, e, h2. split; [exact Hrun|]. split; [exact Hrun2|].
  exact Hcases.
Qed.

Lemma Result_init_twice_witness :
  ∃ r h1 e h2,
    Result_init default_recursion_limit true (VRef 1%positive) ex_heap
    = Ok r h1 ∧
    Result_init default_recursion_limit false (extra r) h1 = Raise e h2 ∧
    ((deepcopy_completes default_recursion_limit h1 (extra r) = true ∧
      e = KeyError "text/plain") ∨
     (deepcopy_completes default_recursion_limit h1 (extra r) = false ∧
      e = RecursionError)).
Proof.
  apply (Result_init_twice default_recursion_limit default_recursion_limit
           true false 1%positive ex_payload (VStr "42") ex_heap).
  - apply (bool_decide_unpack _). vm_compute. exact I.
  - reflexivity.
  - reflexivity.
  - vm_compute. reflexivity.
Defined.

(** X3: on a value of the store, the constructor returns a Result exactly
    when the value is a dictionary that has the key "text/plain" and its
    deep copy stays within the recursion limit. *)
Theorem Result_init_succeeds_iff frames b data h0 :
  closed_heap h0 → closed_val h0 data →
  (∃ r h1, Result_init frames b data h0 = Ok r h1) ↔
  (∃ l d, data = VRef l ∧ h0 !! l = Some (ODict d) ∧
          is_Some (d !! "text/plain") ∧
          deepcopy_completes frames h0 data = true).
Proof.
  intros Hcl Hv. split.
  - intros (r & h1 & Hrun).
    destruct (deepcopy_completes frames h0 data) eqn:Hfit.
    2: { destruct (Result_init_too_deep frames b data h0 Hcl Hv Hfit)
           as (? & Hr & _). congruence. }
    destruct data as [| | | |l];
      try (by rewrite Result_init_atom in Hrun).
    destruct Hv as [[d|vs] Hl].
    + exists l, d. split_and!; [done..| |done].
      destruct (d !! "text/plain") as [t|] eqn:Ht; [eauto|].
      destruct (Result_init_no_text frames b l d h0 Hcl Hl Ht)
        as (? & ? & Hr & _).
      congruence.
    + destruct (Result_init_list frames b l vs h0 Hcl Hl Hfit) as (? & Hr & _).
      congruence.
  - intros (l & d & -> & Hl & [t Ht] & Hfit).
    destruct (Result_init_ok frames b l d t h0 Hcl Hl Ht Hfit)
      as (ρ & h1 & Hrun & _).
    eauto.
Qed.

Lemma Result_init_succeeds_iff_witness :
  (∃ r h1, Result_init default_recursion_limit true (VRef 1%positive) ex_heap
           = Ok r h1) ↔
  (∃ l d, VRef 1%positive = VRef l ∧ ex_heap !! l = Some (ODict d) ∧
          is_Some (d !! "text/plain") ∧
          deepcopy_completes default_recursion_limit ex_heap
            (VRef 1%positive) = true).
Proof.
  apply (Result_init_succeeds_iff default_recursion_limit true
           (VRef 1%positive) ex_heap).
  - apply (bool_decide_unpack _). vm_compute. exact I.
  - apply (bool_decide_unpack _). vm_compute. exact I.
Defined.

(** X4: when the constructor raises, it is the RecursionError of a deep
    copy that does not stay within the recursion limit, KeyError
    "text/plain" on a dictionary without that key, TypeError on a list, or
    AttributeError on a value that is no container; and every object that
    existed before the call is as it was: no key was popped from the
    mapping. *)
Theorem Result_init_raise_frame frames b data h0 e h1 :
  closed_heap h0 → closed_val h0 data →
  Result_init frames b data h0 = Raise e h1 →
  h0 ⊆ h1 ∧
  ((e = RecursionError ∧ deepcopy_completes frames h0 data = false) ∨
   (e = KeyError "text/plain" ∧
    ∃ l d, data = VRef l ∧ h0 !! l = Some (ODict d) ∧
           d !! "text/plain" = None) ∨
   (e = TypeError ∧ ∃ l vs, data = VRef l ∧ h0 !! l = Some (OList vs)) ∨
   (e = AttributeError ∧ ∀ l, data ≠ VRef l)).
Proof.
  intros Hcl Hv Hrun.
  destruct (deepcopy_completes frames h0 data) eqn:Hfit.
  2: { destruct (Result_init_too_deep frames b data h0 Hcl Hv Hfit)
         as (h & Hr & Hsub).
       rewrite Hr in Hrun. injection Hrun as <- <-. split; [done|].
       by left. }
  destruct data as [| | | |l];
    try (rewrite Result_init_atom in Hrun by done;
         injection Hrun as <- <-; split; [done|]; by right; right; right).
  destruct Hv as [[d|vs] Hl].
  - destruct (d !! "text/plain") as [t|] eqn:Ht.
    + destruct (Result_init_ok frames b l d t h0 Hcl Hl Ht Hfit)
        as (? & ? & Hr & _).
      congruence.
    + destruct (Result_init_no_text frames b l d h0 Hcl Hl Ht)
        as (e' & h & Hr & Hsub & Hcases).
      rewrite Hr in Hrun. injection Hrun as <- <-. split; [done|].
      destruct Hcases as [[_ ->]|[? _]]; [|congruence].
      right; left. eauto 10.
  - destruct (Result_init_list frames b l vs h0 Hcl Hl Hfit)
      as (h & Hr & Hsub).
    rewrite Hr in Hrun. injection Hrun as <- <-. split; [done|].
    right; right; left. eauto.
Qed.

Lemma Result_init_raise_frame_witness :
  ∃ e h1,
    Result_init default_recursion_limit true (VRef 3%positive) ex_heap
    = Raise e h1 ∧
    ex_heap ⊆ h1 ∧
    ((e = RecursionError ∧
      deepcopy_completes default_recursion_limit ex_heap (VRef 3%positive)
      = false) ∨
     (e = KeyError "text/plain" ∧
      ∃ l d, VRef 3%positive = VRef l ∧ ex_heap !! l = Some (ODict d) ∧
             d !! "text/plain" = None) ∨
     (e = TypeError ∧
      ∃ l vs, VRef 3%positive = VRef l ∧ ex_heap !! l = Some (OList vs)) ∨
     (e = AttributeError ∧ ∀ l, VRef 3%positive ≠ VRef l)).
Proof.
  eexists _, _. split; [vm_compute; reflexivity|].
  apply (Result_init_raise_frame default_recursion_limit true
           (VRef 3%positive) ex_heap).
  - apply (bool_decide_unpack _). vm_compute. exact I.
  - apply (bool_decide_unpack _). vm_compute. exact I.
  - vm_compute. reflexivity.
Defined.



(** ** Which objects the fields and [raw] refer to *)

Lemma rename_val_inj h0 ρ h1 v1 v2 :
  copy_inv h0 ∅ ρ h1 → in_memo ρ v1 → in_memo ρ v2 →
  rename_val ρ v1 = rename_val ρ v2 → v1 = v2.
Proof.
  intros Hinv H1 H2 Heq.
  destruct v1 as [| | | |l1], v2 as [| | | |l2]; simpl in *; try done.
  destruct H1 as [c1 Hc1], H2 as [c2 Hc2]. rewrite Hc1, Hc2 in Heq.
  simpl in Heq. injection Heq as ->. f_equal.
  by eapply inv_inj.
Qed.

(** X5: a named field holds the caller's own object, not a copy: for a
    well-known key whose value is a container, the field is the very
    reference the input held, while the entry of [raw] under that key is a
    container the constructor allocated; atoms are the same in both. *)
Theorem Result_init_fields_alias frames b l d t h0 :
  closed_heap h0 → h0 !! l = Some (ODict d) → d !! "text/plain" = Some t →
  deepcopy_completes frames h0 (VRef l) = true →
  ∃ r h1 lr rd, Result_init frames b (VRef l) h0 = Ok r h1 ∧
    raw r = VRef lr ∧ h1 !! lr = Some (ODict rd) ∧
    (∀ k f x, (k, f) ∈ named_fields → d !! k = Some (VRef x) →
       f r = VRef x ∧
       ∃ x', rd !! k = Some (VRef x') ∧ x' ≠ x ∧ h0 !! x' = None ∧
             is_Some (h1 !! x')) ∧
    (∀ k v, d !! k = Some v → (∀ x, v ≠ VRef x) → rd !! k = Some v).
Proof.
  intros Hcl Hl Ht Hfit.
  destruct (Result_init_raw_dict frames b l d t h0 Hcl Hl Ht Hfit)
    as (ρ & h1 & lr & Hrun & Hinv & Hlr & Hne & Hraw & Hin & Hcl1).
  eexists _, _, lr, (rename_val ρ <$> d). split; [exact Hrun|].
  split_and!.
  - done.
  - by rewrite lookup_insert_ne.
  - intros k f x Hf Hk. rewrite (named_fields_entry _ _ _ _ _ _ Hf).
    unfold entry. rewrite Hk. split; [done|].
    destruct (Hin k _ Hk) as [x' Hx'].
    destruct (inv_memo _ _ _ _ Hinv x x' Hx') as ([ox Hox] & Hfresh & Hsome).
    exists x'. rewrite lookup_fmap, Hk. simpl. rewrite Hx'.
    split_and!; [done|congruence|done|].
    apply lookup_insert_is_Some'. by right.
  - intros k v Hk Hatom. rewrite lookup_fmap, Hk.
    destruct v as [| | | |x]; try done. by destruct (Hatom x).
Qed.

Lemma Result_init_fields_alias_witness :
  ∃ r h1 lr rd, Result_init default_recursion_limit true (VRef 1%positive) ex_heap = Ok r h1 ∧
    raw r = VRef lr ∧ h1 !! lr = Some (ODict rd) ∧
    (∀ k f x, (k, f) ∈ named_fields → ex_payload !! k = Some (VRef x) →
       f r = VRef x ∧
       ∃ x', rd !! k = Some (VRef x') ∧ x' ≠ x ∧ ex_heap !! x' = None ∧
             is_Some (h1 !! x')) ∧
    (∀ k v, ex_payload !! k = Some v → (∀ x, v ≠ VRef x) →
            rd !! k = Some v).
Proof.
  apply (Result_init_fields_alias default_recursion_limit true 1%positive ex_payload (VStr "42")
           ex_heap).
  - apply (bool_decide_unpack _). vm_compute. exact I.
  - reflexivity.
  - reflexivity.
  - vm_compute. reflexivity.
Defined.

(** X6: [raw] has the sharing the input had: it has the input's keys, and
    the entries of [raw] under two keys are the same value exactly when
    the entries of the input under these keys were. *)
Theorem Result_init_raw_sharing frames b l d t h0 :
  closed_heap h0 → h0 !! l = Some (ODict d) → d !! "text/plain" = Some t →
  deepcopy_completes frames h0 (VRef l) = true →
  ∃ r h1 lr rd, Result_init frames b (VRef l) h0 = Ok r h1 ∧
    raw r = VRef lr ∧ h1 !! lr = Some (ODict rd) ∧ dom rd = dom d ∧
    ∀ k1 k2 v1 v2 w1 w2,
      d !! k1 = Some v1 → d !! k2 = Some v2 →
      rd !! k1 = Some w1 → rd !! k2 = Some w2 →
      (w1 = w2 ↔ v1 = v2).
Proof.
  intros Hcl Hl Ht Hfit.
  destruct (Result_init_raw_dict frames b l d t h0 Hcl Hl Ht Hfit)
    as (ρ & h1 & lr & Hrun & Hinv & Hlr & Hne & Hraw & Hin & Hcl1).
  eexists _, _, lr, (rename_val ρ <$> d). split; [exact Hrun|].
  split_and!.
  - done.
  - by rewrite lookup_insert_ne.
  - apply dom_fmap_L.
  - intros k1 k2 v1 v2 w1 w2 Hk1 Hk2. rewrite !lookup_fmap, Hk1, Hk2.
    simpl. intros [= <-] [= <-]. split; [|by intros ->].
    eapply rename_val_inj; eauto.
Qed.

Lemma Result_init_raw_sharing_witness :
  ∃ r h1 lr rd, Result_init default_recursion_limit true (VRef 1%positive) ex_heap = Ok r h1 ∧
    raw r = VRef lr ∧ h1 !! lr = Some (ODict rd) ∧
    dom rd = dom ex_payload ∧
    ∀ k1 k2 v1 v2 w1 w2,
      ex_payload !! k1 = Some v1 → ex_payload !! k2 = Some v2 →
      rd !! k1 = Some w1 → rd !! k2 = Some w2 →
      (w1 = w2 ↔ v1 = v2).
Proof.
  apply (Result_init_raw_sharing default_recursion_limit true 1%positive ex_payload (VStr "42")
           ex_heap).
  - apply (bool_decide_unpack _). vm_compute. exact I.
  - reflexivity.
  - reflexivity.
  - vm_compute. reflexivity.
Defined.

(** ** Execution.text while results are collected *)

Lemma Execution_text_loop_app ds1 ds2 :
  Execution_text_loop (ds1 ++ ds2)
  = if has_main ds1 then Execution_text_loop ds1 else Execution_text_loop ds2.
Proof.
  induction ds1 as [|d ds1 IH]; [done|].
  unfold has_main in *. simpl. by destruct (is_main_result d).
Qed.

(** X7: when the results of an Execution are those of one Execution
    followed by those of another, its [text] is the [text] of the first
    if the first has a Result marked main, and the [text] of the second
    otherwise: once a main Result is there, appending results does not
    change [text]. *)
Theorem Execution_text_append e e1 e2 :
  results e = results e1 ++ results e2 →
  Execution_text e
  = if has_main (results e1) then Execution_text e1 else Execution_text e2.
Proof.
  intros Hres. unfold Execution_text. rewrite Hres.
  apply Execution_text_loop_app.
Qed.

Lemma Execution_text_append_witness :
  Execution_text {| results := [display_result; main_result; display_result];
                    logs := no_logs; error := None |}
  = if has_main [display_result; main_result]
    then Execution_text {| results := [display_result; main_result];
                           logs := no_logs; error := None |}
    else Execution_text {| results := [display_result];
                           logs := no_logs; error := None |}.
Proof.
  apply (Execution_text_append
           {| results := [display_result; main_result; display_result];
              logs := no_logs; error := None |}
           {| results := [display_result; main_result];
              logs := no_logs; error := None |}
           {| results := [display_result]; logs := no_logs; error := None |}).
  reflexivity.
Defined.

(** ** Error.traceback and the lines it is made of *)

Lemma str_join_app sep l1 l2 :
  l1 ≠ [] → l2 ≠ [] →
  str_join sep (l1 ++ l2) = str_join sep l1 +:+ sep +:+ str_join sep l2.
Proof.
  intros H1 H2. destruct l2 as [|y l2]; [done|]. clear H2.
  induction l1 as [|a l1 IH]; [done|]. clear H1.
  destruct l1 as [|b l1]; [done|].
  change (a +:+ sep +:+ str_join sep ((b :: l1) ++ y :: l2)
          = (a +:+ sep +:+ str_join sep (b :: l1))
            +:+ sep +:+ str_join sep (y :: l2)).
  rewrite IH by done. by rewrite !append_assoc.
Qed.

(** X8: the traceback of an Error whose lines are the lines of one Error
    followed by the lines of another, both with at least one line, is the
    first traceback, a newline, and the second traceback. *)
Theorem Error_traceback_app e e1 e2 :
  traceback_raw e = traceback_raw e1 ++ traceback_raw e2 →
  traceback_raw e1 ≠ [] → traceback_raw e2 ≠ [] →
  Error_traceback e
  = Error_traceback e1 +:+ newline +:+ Error_traceback e2.
Proof.
  intros Hraw H1 H2. unfold Error_traceback. rewrite Hraw.
  by apply str_join_app.
Qed.

Lemma Error_traceback_app_witness :
  Error_traceback {| name := "E"; value := "v";
                     traceback_raw := ["a"; "b"; "c"] |}
  = Error_traceback {| name := "E"; value := "v"; traceback_raw := ["a"] |}
    +:+ newline +:+
    Error_traceback {| name := "E"; value := "v";
                       traceback_raw := ["b"; "c"] |}.
Proof.
  apply (Error_traceback_app
           {| name := "E"; value := "v"; traceback_raw := ["a"; "b"; "c"] |}
           {| name := "E"; value := "v"; traceback_raw := ["a"] |}
           {| name := "E"; value := "v"; traceback_raw := ["b"; "c"] |}).
  - reflexivity.
  - discriminate.
  - discriminate.
Defined.

Lemma append_sep_not_empty (s t : string) :
  s +:+ newline +:+ t ≠ EmptyString.
Proof. by destruct s. Qed.

(** X9: the traceback is the empty string exactly when there is no line
    or the only line is empty: from an empty traceback one cannot tell
    which. *)
Theorem Error_traceback_empty_iff e :
  Error_traceback e = EmptyString ↔
  traceback_raw e = [] ∨ traceback_raw e = [EmptyString].
Proof.
  destruct e as [n v lines]. unfold Error_traceback. simpl.
  destruct lines as [|s [|y rest]].
  - naive_solver.
  - simpl. naive_solver.
  - split; [|naive_solver]. intros Heq.
    by apply append_sep_not_empty in Heq.
Qed.

Lemma str_split_no_sep c s : has_char c s = false → str_split c s = [s].
Proof.
  induction s as [|a s IH]; [done|]. simpl. case_decide; [done|].
  intros Hs. by rewrite IH.
Qed.

Lemma str_split_app c s t :
  has_char c s = false →
  str_split c (s +:+ String c t) = s :: str_split c t.
Proof.
  induction s as [|a s IH]; intros Hs.
  - change (str_split c (String c t) = EmptyString :: str_split c t).
    simpl. by rewrite decide_True.
  - simpl in Hs. case_decide as Hac; [done|].
    change (str_split c (String a (s +:+ String c t))
            = String a s :: str_split c t).
    simpl. rewrite decide_False by done. by rewrite IH.
Qed.

Lemma str_split_join c lines :
  lines ≠ [] → Forall (λ s, has_char c s = false) lines →
  str_split c (str_join (String c EmptyString) lines) = lines.
Proof.
  intros Hne Hall. induction Hall as [|s lines Hs Hall IH]; [done|].
  destruct lines as [|y rest]; [by apply str_split_no_sep|].
  change (str_split c (s +:+ String c (str_join (String c EmptyString)
                                         (y :: rest)))
          = s :: y :: rest).
  rewrite str_split_app by done. by rewrite IH.
Qed.

(** X10: when there is at least one line and no line contains a newline,
    splitting the traceback at the newlines gives back [traceback_raw]. *)
Theorem Error_traceback_split e :
  traceback_raw e ≠ [] →
  Forall (λ s, has_char (Ascii.ascii_of_nat 10) s = false) (traceback_raw e) →
  str_split (Ascii.ascii_of_nat 10) (Error_traceback e) = traceback_raw e.
Proof. intros Hne Hall. unfold Error_traceback. by apply str_split_join. Qed.

Lemma Error_traceback_split_witness :
  str_split (Ascii.ascii_of_nat 10)
    (Error_traceback {| name := "E"; value := "v";
                        traceback_raw := ["line1"; EmptyString; "line2"] |})
  = ["line1"; EmptyString; "line2"].
Proof.
  apply (Error_traceback_split
           {| name := "E"; value := "v";
              traceback_raw := ["line1"; EmptyString; "line2"] |}).
  - discriminate.
  - repeat constructor.
Defined.

